(** * CarND-Controls-MPC: the telemetry handler of [src/main.cpp]

    A shallow embedding of the control pipeline that [main.cpp] runs on every
    telemetry event: latency prediction, map-to-car coordinate transform,
    polynomial fit, error extraction, the call to the MPC solver and the
    packaging of the outbound command.

    Conventions of the embedding:
    - a C++ [double] is an exact real number ([R]); rounding, infinities and
      NaN are not modelled, so every equation below is one over the reals;
    - [int] and Eigen's signed [Index] are [Z]; a [std::vector<double>] and an
      [Eigen::VectorXd] are [list R], an [Eigen::MatrixXd] a list of rows;
    - a failed [assert] and a read or write past the end of a vector are
      outcomes of their own ([AssertFailed], [OutOfBounds]), threaded through
      the handler by a small error monad;
    - [Eigen::HouseholderQR::solve] and [MPC::Solve] are not defined in
      [main.cpp]; they are parameters of the handler;
    - a [std::string] is the list of its characters, a position that a
      search did not find is [None], and [size_t] arithmetic wraps around at
      64 bits. *)

From Stdlib Require Import Reals Lra Lia ZArith List Bool.
From Stdlib Require Ascii.
Import Ascii.AsciiSyntax.
Import ListNotations.
Delimit Scope char_scope with char.
Open Scope R_scope.

(** ** Outcomes of running a piece of the handler *)

Inductive outcome (A : Type) : Type :=
| Done (a : A)
| AssertFailed
| OutOfBounds.

Arguments Done {A} a.
Arguments AssertFailed {A}.
Arguments OutOfBounds {A}.

Definition bind {A B : Type} (m : outcome A) (f : A -> outcome B) : outcome B :=
  match m with
  | Done a => f a
  | AssertFailed => AssertFailed
  | OutOfBounds => OutOfBounds
  end.

Notation "x <- m ;; k" := (bind m (fun x => k))
  (at level 61, m at next level, right associativity).
Notation "' pat <- m ;; k" := (bind m (fun x => match x with pat => k end))
  (at level 61, pat pattern, m at next level, right associativity).

(** [assert(cond)], compiled in (no [NDEBUG]): a false condition aborts. *)
Definition assert (cond : bool) : outcome unit :=
  if cond then Done tt else AssertFailed.

(** [v[i]] as an rvalue: defined only below [v.size()]. *)
Definition vec_get (v : list R) (i : nat) : outcome R :=
  match nth_error v i with
  | Some a => Done a
  | None => OutOfBounds
  end.

(** [v[i] = a]: defined only below [v.size()]. *)
Definition vec_set (v : list R) (i : nat) (a : R) : outcome (list R) :=
  if (i <? length v)%nat
  then Done (firstn i v ++ a :: skipn (S i) v)
  else OutOfBounds.

(** [Eigen::Map<Eigen::VectorXd>(&v[0], n)], copied into a [VectorXd]: the [n]
    doubles that start at the first element of [v]. *)
Definition eigen_map (v : list R) (n : nat) : outcome (list R) :=
  if (n <=? length v)%nat then Done (firstn n v) else OutOfBounds.

(** ** Helpers at the top of [main.cpp] *)

Definition pi : R := PI.
Definition deg2rad (x : R) : R := x * pi / 180.
Definition rad2deg (x : R) : R := x * 180 / pi.

(** [polyeval] (lines 36-42): the loop [result += coeffs[i] * pow(x, i)],
    from [i] on. *)
Fixpoint polyeval_loop (coeffs : list R) (x : R) (i : nat) (result : R) : R :=
  match coeffs with
  | [] => result
  | c :: rest => polyeval_loop rest x (S i) (result + c * x ^ i)
  end.

Definition polyeval (coeffs : list R) (x : R) : R :=
  polyeval_loop coeffs x 0 0.

(** The inner loop of [polyfit], [A(j, i + 1) = A(j, i) * xvals(j)], for the
    [n] columns to the right of a column that holds [prev]. *)
Fixpoint fill_row (xj : R) (prev : R) (n : nat) : list R :=
  match n with
  | O => []
  | S n' => let next := prev * xj in next :: fill_row xj next n'
  end.

(** Row [j] of [A] after both loops: [A(j, 0) = 1.0], then the products. *)
Definition design_row (order : nat) (xj : R) : list R :=
  1 :: fill_row xj 1 order.

Definition design_matrix (xvals : list R) (order : nat) : list (list R) :=
  map (design_row order) xvals.

(** [Eigen]'s [size()] is a signed index. *)
Definition size (v : list R) : Z := Z.of_nat (length v).

Section Handler.

(** [A.householderQr().solve(b)], from Eigen. *)
Variable householderQr_solve : list (list R) -> list R -> list R.

(** [MPC::Solve(state, coeffs)], declared in [MPC.h]. *)
Variable mpc_Solve : list R -> list R -> list R.

(** [polyfit] (lines 47-66) *)
Definition polyfit (xvals yvals : list R) (order : Z) : outcome (list R) :=
  _ <- assert (size xvals =? size yvals)%Z ;;
  _ <- assert ((order >=? 1)%Z && (order <=? size xvals - 1)%Z) ;;
  let A := design_matrix xvals (Z.to_nat order) in
  Done (householderQr_solve A yvals).

(** *** The telemetry event: [j[1]] after parsing *)

Record telemetry : Type := {
  j_ptsx : list R;
  j_ptsy : list R;
  j_x : R;
  j_y : R;
  j_psi : R;
  j_speed : R;
  j_steering_angle : R;
  j_throttle : R
}.

(** The handler's locals [px], [py], [psi] and [v]. *)
Record vehicle : Type := {
  px : R;
  py : R;
  psi : R;
  v : R
}.

Definition Lf : R := 2.67.
Definition latency : R := 0.1.
Definition poly_inc : R := 2.5.
Definition num_points : Z := 25.

(** "Predicting state parameters for a latency of 100 ms" (lines 101-104):
    four assignments, one after the other, each reading the locals as the
    ones before left them. The latency and [Lf] are arguments here; the
    handler passes its constants. *)
Definition predict (delay lf steer_value throttle_value : R) (s : vehicle)
  : vehicle :=
  let s := {| px := px s + v s * cos (psi s) * delay;
              py := py s; psi := psi s; v := v s |} in
  let s := {| px := px s;
              py := py s + v s * sin (psi s) * delay;
              psi := psi s; v := v s |} in
  let s := {| px := px s; py := py s;
              psi := psi s - v s * steer_value / lf * delay;
              v := v s |} in
  {| px := px s; py := py s; psi := psi s;
     v := v s + throttle_value * delay |}.

(** The coordinate transformation loop (lines 107-112), for [n] more indices
    from [i] on; [ptsx] and [ptsy] are overwritten in place. *)
Fixpoint transform_loop (n i : nat) (s : vehicle) (ptsx ptsy : list R)
  : outcome (list R * list R) :=
  match n with
  | O => Done (ptsx, ptsy)
  | S n' =>
      xi <- vec_get ptsx i ;;
      yi <- vec_get ptsy i ;;
      let delta_x := xi - px s in
      let delta_y := yi - py s in
      ptsx <- vec_set ptsx i
                (delta_x * cos (0 - psi s) - delta_y * sin (0 - psi s)) ;;
      ptsy <- vec_set ptsy i
                (delta_x * sin (0 - psi s) + delta_y * cos (0 - psi s)) ;;
      transform_loop n' (S i) s ptsx ptsy
  end.

Definition transform (s : vehicle) (ptsx ptsy : list R)
  : outcome (list R * list R) :=
  transform_loop (length ptsx) 0 s ptsx ptsy.

(** The reference line loop (lines 153-156),
    [for (int i = 1; i < num_points; i++)], for [n] more rounds from [i] on. *)
Fixpoint next_vals_loop (n : nat) (i : Z) (coeffs : list R)
    (next_x_vals next_y_vals : list R) : list R * list R :=
  match n with
  | O => (next_x_vals, next_y_vals)
  | S n' =>
      next_vals_loop n' (i + 1) coeffs
        (next_x_vals ++ [poly_inc * IZR i])
        (next_y_vals ++ [polyeval coeffs (poly_inc * IZR i)])
  end.

Definition next_vals (coeffs : list R) : list R * list R :=
  next_vals_loop (Z.to_nat (num_points - 1)) 1 coeffs [] [].

(** The MPC trajectory loop (lines 163-169),
    [for (size_t i = 2; i < vars.size(); i++)], over the elements of [vars]
    from index [i] on. *)
Fixpoint mpc_vals_loop (rest : list R) (i : nat)
    (mpc_x_vals mpc_y_vals : list R) : list R * list R :=
  match rest with
  | [] => (mpc_x_vals, mpc_y_vals)
  | a :: rest' =>
      if (i mod 2 =? 0)%nat
      then mpc_vals_loop rest' (S i) (mpc_x_vals ++ [a]) mpc_y_vals
      else mpc_vals_loop rest' (S i) mpc_x_vals (mpc_y_vals ++ [a])
  end.

Definition mpc_vals (vars : list R) : list R * list R :=
  mpc_vals_loop (skipn 2 vars) 2 [] [].

(** The outbound ["steer"] message. *)
Record msgJson : Type := {
  steering_angle : R;
  throttle : R;
  mpc_x : list R;
  mpc_y : list R;
  next_x : list R;
  next_y : list R
}.

(** One run of the handler: the message it sends, with the values of the
    locals it went through. *)
Record tick : Type := {
  predicted : vehicle;
  ptsx_car : list R;
  ptsy_car : list R;
  ptsx_transform : list R;
  ptsy_transform : list R;
  coeffs : list R;
  cte : R;
  epsi : R;
  state : list R;
  vars : list R;
  msg : msgJson
}.

(** The body of [if (event == "telemetry")] (lines 88-185), up to the
    message it builds. *)
Definition onTelemetry (j : telemetry) : outcome tick :=
  let s := {| px := j_x j; py := j_y j; psi := j_psi j; v := j_speed j |} in
  let steer_value := j_steering_angle j in
  let throttle_value := j_throttle j in
  let s := predict latency Lf steer_value throttle_value s in
  '(ptsx, ptsy) <- transform s (j_ptsx j) (j_ptsy j) ;;
  ptsx_transform <- eigen_map ptsx 6 ;;
  ptsy_transform <- eigen_map ptsy 6 ;;
  coeffs <- polyfit ptsx_transform ptsy_transform 3 ;;
  let cte := polyeval coeffs 0 in
  c1 <- vec_get coeffs 1 ;;
  let epsi := - atan c1 in
  let state := [0; 0; 0; v s; cte; epsi] in
  let vars := mpc_Solve state coeffs in
  let '(next_x_vals, next_y_vals) := next_vals coeffs in
  let '(mpc_x_vals, mpc_y_vals) := mpc_vals vars in
  vars0 <- vec_get vars 0 ;;
  vars1 <- vec_get vars 1 ;;
  Done {| predicted := s;
          ptsx_car := ptsx;
          ptsy_car := ptsy;
          ptsx_transform := ptsx_transform;
          ptsy_transform := ptsy_transform;
          coeffs := coeffs;
          cte := cte;
          epsi := epsi;
          state := state;
          vars := vars;
          msg := {| steering_angle := vars0 / (deg2rad 25 * Lf);
                    throttle := vars1;
                    mpc_x := mpc_x_vals;
                    mpc_y := mpc_y_vals;
                    next_x := next_x_vals;
                    next_y := next_y_vals |} |}.

End Handler.

Arguments onTelemetry householderQr_solve mpc_Solve j : simpl never.

(** ** Definitions used to state the properties *)

(** The measured pose and speed of a telemetry event, before any prediction. *)
Definition measured (j : telemetry) : vehicle :=
  {| px := j_x j; py := j_y j; psi := j_psi j; v := j_speed j |}.

(** One round of the transformation loop, as a function of the waypoint. *)
Definition car_x (s : vehicle) (p : R * R) : R :=
  (fst p - px s) * cos (0 - psi s) - (snd p - py s) * sin (0 - psi s).

Definition car_y (s : vehicle) (p : R * R) : R :=
  (fst p - px s) * sin (0 - psi s) + (snd p - py s) * cos (0 - psi s).

(** The algebraic inverse of the frame transform, as the specification words
    it: rotate by [+psi], then translate by [(+px, +py)]. *)
Definition map_x (s : vehicle) (p : R * R) : R :=
  fst p * cos (psi s) - snd p * sin (psi s) + px s.

Definition map_y (s : vehicle) (p : R * R) : R :=
  fst p * sin (psi s) + snd p * cos (psi s) + py s.

Definition inverse_transform (s : vehicle) (ptsx ptsy : list R)
  : list R * list R :=
  (map (map_x s) (combine ptsx ptsy), map (map_y s) (combine ptsx ptsy)).

(** The waypoints the specification's pipeline order would hand to the fit:
    the frame transform at the measured pose. *)
Definition spec_order_waypoints (j : telemetry) : outcome (list R * list R) :=
  transform (measured j) (j_ptsx j) (j_ptsy j).

(** The polynomial [c0 + c1 x + c2 x^2 + ...] by Horner's rule. *)
Fixpoint horner (coeffs : list R) (x : R) : R :=
  match coeffs with
  | [] => 0
  | c :: rest => c + x * horner rest x
  end.

(** Matrix-vector product, one row at a time, and the least-squares
    objective [|A c - b|^2] that [householderQr().solve] minimises. *)
Fixpoint dot (a b : list R) : R :=
  match a, b with
  | x :: a', y :: b' => x * y + dot a' b'
  | _, _ => 0
  end.

Fixpoint residual (A : list (list R)) (b c : list R) : R :=
  match A, b with
  | row :: A', bi :: b' => (dot row c - bi)² + residual A' b' c
  | _, _ => 0
  end.

Definition least_squares (n : nat) (A : list (list R)) (b c : list R) : Prop :=
  length c = n /\
  forall c', length c' = n -> residual A b c <= residual A b c'.

(** [xs] holds at most [n] distinct values. *)
Definition at_most_distinct (n : nat) (xs : list R) : Prop :=
  exists l, incl xs l /\ (length l <= n)%nat.

(** Polynomials as coefficient lists, lowest degree first. *)
Fixpoint padd (p q : list R) : list R :=
  match p, q with
  | [], _ => q
  | _, [] => p
  | a :: p', b :: q' => (a + b) :: padd p' q'
  end.

Definition pscale (a : R) (p : list R) : list R := map (Rmult a) p.




(** ** Sample runs *)

(** A solver stand-in that returns four zero coefficients, and an MPC stand-in
    that returns steering at the 25 degree bound, throttle 1 and one predicted
    point. *)
Definition qr_zero (_ : list (list R)) (_ : list R) : list R := [0; 0; 0; 0].
Definition mpc_at_bound (_ _ : list R) : list R := [deg2rad 25; 1; 5; 0].

(** A solver stand-in that returns the cubic 3 + x. *)
Definition qr_offset (_ : list (list R)) (_ : list R) : list R := [3; 1; 0; 0].


(** Six waypoints straight ahead of a car at the origin that moves at speed
    10 along the x axis. *)
Definition j_six : telemetry :=
  {| j_ptsx := [1; 2; 3; 4; 5; 6]; j_ptsy := [0; 0; 0; 0; 0; 0];
     j_x := 0; j_y := 0; j_psi := 0; j_speed := 10;
     j_steering_angle := 0; j_throttle := 0 |}.

(** The same event with a seventh waypoint. *)
Definition j_seven : telemetry :=
  {| j_ptsx := [1; 2; 3; 4; 5; 6; 7]; j_ptsy := [0; 0; 0; 0; 0; 0; 9];
     j_x := 0; j_y := 0; j_psi := 0; j_speed := 10;
     j_steering_angle := 0; j_throttle := 0 |}.

(** The same event with only the first four waypoints. *)
Definition j_four : telemetry :=
  {| j_ptsx := [1; 2; 3; 4]; j_ptsy := [0; 0; 0; 0];
     j_x := 0; j_y := 0; j_psi := 0; j_speed := 10;
     j_steering_angle := 0; j_throttle := 0 |}.

(** ** The message layer of [main.cpp] *)

(** A [std::string] is its sequence of characters; the position
    [string::npos] that a failed search returns is [None]. *)
Definition text : Type := list Ascii.ascii.

(** [size_t] arithmetic wraps around at 64 bits. *)
Definition size_t (z : Z) : Z := (z mod 2 ^ 64)%Z.

(** Does [pat] sit at the front of [s]? *)
Fixpoint starts_with (pat s : text) : bool :=
  match pat, s with
  | [], _ => true
  | _ :: _, [] => false
  | a :: pat', b :: s' => Ascii.eqb a b && starts_with pat' s'
  end.

(** [s.find(pat)]: the first position at which [pat] occurs. *)
Fixpoint find (pat s : text) : option nat :=
  match s with
  | [] => if starts_with pat [] then Some O else None
  | _ :: s' =>
      if starts_with pat s then Some O else option_map S (find pat s')
  end.

(** [s.rfind(pat)]: the last position at which [pat] occurs. *)
Fixpoint rfind (pat s : text) : option nat :=
  match s with
  | [] => if starts_with pat [] then Some O else None
  | _ :: s' =>
      match rfind pat s' with
      | Some m => Some (S m)
      | None => if starts_with pat s then Some O else None
      end
  end.

(** [s.find_first_of(chars)]: the first position that holds one of the
    characters of [chars]. *)
Fixpoint find_first_of (chars s : text) : option nat :=
  match s with
  | [] => None
  | c :: s' =>
      if existsb (Ascii.eqb c) chars then Some O
      else option_map S (find_first_of chars s')
  end.

(** [s.substr(pos, count)] for [pos <= s.size()]: the characters from [pos]
    on, [min(count, size - pos)] of them. *)
Definition substr (s : text) (pos count : Z) : text :=
  let rlen := Z.min count (Z.of_nat (length s) - pos) in
  firstn (Z.to_nat rlen) (skipn (Z.to_nat pos) s).

(** [hasData] (lines 23-33) *)
Definition hasData (s : text) : text :=
  let found_null := find ["n"; "u"; "l"; "l"]%char s in
  let b1 := find_first_of ["["]%char s in
  let b2 := rfind ["}"; "]"]%char s in
  match found_null with
  | Some _ => []
  | None =>
      match b1, b2 with
      | Some b1, Some b2 =>
          substr s (Z.of_nat b1) (size_t (Z.of_nat b2 - Z.of_nat b1 + 2))
      | _, _ => []
      end
  end.

(** [string(data)] for a [char *]: the characters up to the first NUL. *)
Fixpoint until_nul (data : text) : text :=
  match data with
  | [] => []
  | c :: rest =>
      if Ascii.eqb c Ascii.zero then [] else c :: until_nul rest
  end.

(** What the message handler does with an incoming frame (lines 79-86 and
    202-206): nothing, the manual-driving reply, or [json::parse] on the
    payload. *)
Inductive branch : Type :=
| Ignored
| ManualDriving
| Parse (s : text).

(** The handler up to [json::parse]. [data] is the memory at the pointer (the
    frame's bytes and what follows them) and [length] the frame's size;
    line 79 builds [sdata] as [string(data).substr(0, length)]. *)
Definition onMessage (data : text) (length : nat) : branch :=
  let sdata := substr (until_nul data) 0 (Z.of_nat length) in
  if (2 <? List.length sdata)%nat
     && Ascii.eqb (nth 0 sdata Ascii.zero) "4"
     && Ascii.eqb (nth 1 sdata Ascii.zero) "2"
  then
    match hasData sdata with
    | [] => ManualDriving
    | s => Parse s
    end
  else Ignored.

(** [pat] occurs in [s] at position [k]. *)
Definition occurs_at (pat s : text) (k : nat) : Prop :=
  firstn (length pat) (skipn k s) = pat.

(** ** More definitions used to state properties *)

(** The quotient of the polynomial [d] by [X - r]. *)
Fixpoint quot (r : R) (d : list R) : list R :=
  match d with
  | [] => []
  | _ :: d' => padd d' (pscale r (quot r d'))
  end.

(** The elements of a list at even positions, and those at odd positions. *)
Fixpoint alternate (l : list R) : list R * list R :=
  match l with
  | [] => ([], [])
  | a :: l' => (a :: snd (alternate l'), fst (alternate l'))
  end.

(** A telemetry event cut down to its first six waypoints. *)
Definition first_six (j : telemetry) : telemetry :=
  {| j_ptsx := firstn 6 (j_ptsx j); j_ptsy := firstn 6 (j_ptsy j);
     j_x := j_x j; j_y := j_y j; j_psi := j_psi j; j_speed := j_speed j;
     j_steering_angle := j_steering_angle j; j_throttle := j_throttle j |}.

(** The same event seen in a map frame whose origin is moved by
    [(-dx, -dy)]: every position grows by [(dx, dy)]. *)
Definition translate (dx dy : R) (j : telemetry) : telemetry :=
  {| j_ptsx := map (Rplus dx) (j_ptsx j); j_ptsy := map (Rplus dy) (j_ptsy j);
     j_x := dx + j_x j; j_y := dy + j_y j; j_psi := j_psi j;
     j_speed := j_speed j;
     j_steering_angle := j_steering_angle j; j_throttle := j_throttle j |}.

(** The same event seen in a map frame turned by [- theta] about its origin:
    every position is rotated by [theta] and the heading grows by [theta]. *)
Definition rotate (theta : R) (j : telemetry) : telemetry :=
  {| j_ptsx := map (fun p => fst p * cos theta - snd p * sin theta)
                   (combine (j_ptsx j) (j_ptsy j));
     j_ptsy := map (fun p => fst p * sin theta + snd p * cos theta)
                   (combine (j_ptsx j) (j_ptsy j));
     j_x := j_x j * cos theta - j_y j * sin theta;
     j_y := j_x j * sin theta + j_y j * cos theta;
     j_psi := j_psi j + theta;
     j_speed := j_speed j;
     j_steering_angle := j_steering_angle j; j_throttle := j_throttle j |}.

(** An event with five abscissas and seven ordinates. *)
Definition j_five : telemetry :=
  {| j_ptsx := [1; 2; 3; 4; 5]; j_ptsy := [0; 0; 0; 0; 0; 0; 0];
     j_x := 0; j_y := 0; j_psi := 0; j_speed := 10;
     j_steering_angle := 0; j_throttle := 0 |}.

(** Sample frames: a telemetry frame, a frame whose last ["}]"] comes before
    its first ["["] (with a lone ["}"] after it), a frame that holds
    ["null"], and the telemetry frame followed by a NUL byte and ["null"]. *)
Definition frame_event : text :=
  ["4"; "2"; "["; "a"; ","; "{"; "}"; "]"]%char.
Definition frame_reversed : text :=
  ["4"; "2"; "}"; "]"; "a"; "["; "c"; "}"; "d"]%char.
Definition frame_null : text :=
  ["4"; "2"; "["; "n"; "u"; "l"; "l"; "}"; "]"]%char.
Definition frame_nul : text :=
  frame_event ++ Ascii.zero :: ["n"; "u"; "l"; "l"]%char.

(** Proof automation: split a completed [bind] into its two completed
    halves. *)
Ltac bind_inv H :=
  let a := fresh "a" in
  let E := fresh "E" in
  match type of H with
  | bind ?m _ = Done _ =>
      destruct m as [a| |] eqn:E; cbn [bind] in H;
      [ | discriminate H | discriminate H ]
  end.

(** ** Properties *)

Lemma onTelemetry_j_six :
  { out | onTelemetry qr_zero mpc_at_bound j_six = Done out }.
Proof. eexists. reflexivity. Defined.

Lemma onTelemetry_j_seven :
  { out | onTelemetry qr_zero mpc_at_bound j_seven = Done out }.
Proof. eexists. reflexivity. Defined.

Lemma onTelemetry_j_six_offset :
  { out | onTelemetry qr_offset mpc_at_bound j_six = Done out }.
Proof. eexists. reflexivity. Defined.

(** *** Running the handler to its end *)

(** Every step a completed run went through, with the locals it produced. *)
Lemma onTelemetry_Done qr mpc (j : telemetry) (out : tick) :
  onTelemetry qr mpc j = Done out ->
  let s := predict latency Lf (j_steering_angle j) (j_throttle j) (measured j) in
  exists ptsx ptsy xt yt c c1 vars0 vars1,
    transform s (j_ptsx j) (j_ptsy j) = Done (ptsx, ptsy) /\
    eigen_map ptsx 6 = Done xt /\
    eigen_map ptsy 6 = Done yt /\
    polyfit qr xt yt 3 = Done c /\
    vec_get c 1 = Done c1 /\
    vec_get (mpc [0; 0; 0; v s; polyeval c 0; - atan c1] c) 0 = Done vars0 /\
    vec_get (mpc [0; 0; 0; v s; polyeval c 0; - atan c1] c) 1 = Done vars1 /\
    out = {| predicted := s;
             ptsx_car := ptsx; ptsy_car := ptsy;
             ptsx_transform := xt; ptsy_transform := yt;
             coeffs := c;
             cte := polyeval c 0;
             epsi := - atan c1;
             state := [0; 0; 0; v s; polyeval c 0; - atan c1];
             vars := mpc [0; 0; 0; v s; polyeval c 0; - atan c1] c;
             msg := {| steering_angle := vars0 / (deg2rad 25 * Lf);
                       throttle := vars1;
                       mpc_x := fst (mpc_vals (mpc [0; 0; 0; v s; polyeval c 0; - atan c1] c));
                       mpc_y := snd (mpc_vals (mpc [0; 0; 0; v s; polyeval c 0; - atan c1] c));
                       next_x := fst (next_vals c);
                       next_y := snd (next_vals c) |} |}.
Proof.
  intros H s. unfold onTelemetry in H.
  fold (measured j) in H. fold s in H.
  bind_inv H. destruct a as [ptsx ptsy].
  bind_inv H. rename a into xt.
  bind_inv H. rename a into yt.
  bind_inv H. rename a into c.
  bind_inv H. rename a into c1.
  destruct (next_vals c) as [nx ny] eqn:En.
  destruct (mpc_vals (mpc [0; 0; 0; v s; polyeval c 0; - atan c1] c))
    as [mx my] eqn:Em.
  bind_inv H. rename a into vars0.
  bind_inv H. rename a into vars1.
  exists ptsx, ptsy, xt, yt, c, c1, vars0, vars1.
  repeat (split; [assumption || reflexivity|]).
  injection H as H. subst out. rewrite En, Em. reflexivity.
Qed.

(** *** [polyeval] *)

Lemma polyeval_loop_horner (c : list R) (x : R) :
  forall (i : nat) (result : R),
    polyeval_loop c x i result = result + x ^ i * horner c x.
Proof.
  induction c as [|a c IH]; intros i result; simpl.
  - ring.
  - rewrite IH. simpl. ring.
Qed.

Lemma polyeval_horner (c : list R) (x : R) : polyeval c x = horner c x.
Proof.
  unfold polyeval. rewrite polyeval_loop_horner. simpl. ring.
Qed.

Lemma horner_at_zero (c : list R) : horner c 0 = nth 0 c 0.
Proof.
  destruct c as [|a c]; simpl; [reflexivity | ring].
Qed.

Lemma polyeval_at_zero (c : list R) : polyeval c 0 = nth 0 c 0.
Proof.
  rewrite polyeval_horner. apply horner_at_zero.
Qed.

(** The sum [c0 x^0 + c1 x^1 + ...] term by term, from exponent [i] on. *)
Lemma polyeval_loop_sum (c : list R) (x : R) :
  forall (i : nat) (result : R),
    polyeval_loop c x i result =
    result + fold_right Rplus 0
               (map (fun j => nth j c 0 * x ^ (i + j)) (seq 0 (length c))).
Proof.
  induction c as [|a c IH]; intros i result.
  - simpl. ring.
  - cbn [polyeval_loop length seq map fold_right nth].
    rewrite IH, <- seq_shift, map_map.
    rewrite Nat.add_0_r, Rplus_assoc. do 3 f_equal.
    apply map_ext. intros j. cbn [nth].
    replace (S i + j)%nat with (i + S j)%nat by lia. reflexivity.
Qed.

Lemma vec_get_nth (l : list R) (i : nat) (a : R) :
  vec_get l i = Done a -> nth i l 0 = a.
Proof.
  unfold vec_get. destruct (nth_error l i) as [b|] eqn:E; intros H.
  - injection H as <-. apply nth_error_nth. exact E.
  - discriminate.
Qed.

(** *** The reference line loop *)

Lemma next_vals_loop_map (c : list R) :
  forall (n i : nat) (xs ys : list R),
    next_vals_loop n (Z.of_nat i) c xs ys =
    (xs ++ map (fun k => poly_inc * INR k) (seq i n),
     ys ++ map (fun k => polyeval c (poly_inc * INR k)) (seq i n)).
Proof.
  induction n as [|n IH]; intros i xs ys.
  - simpl. now rewrite !app_nil_r.
  - cbn [next_vals_loop seq map].
    replace (Z.of_nat i + 1)%Z with (Z.of_nat (S i)) by lia.
    rewrite IH, <- !app_assoc, <- INR_IZR_INZ. reflexivity.
Qed.

Lemma next_vals_map (c : list R) :
  next_vals c =
  (map (fun k => poly_inc * INR k) (seq 1 24),
   map (fun k => polyeval c (poly_inc * INR k)) (seq 1 24)).
Proof.
  unfold next_vals. apply (next_vals_loop_map c 24 1 [] []).
Qed.

(** *** The latency prediction *)

Lemma predict_closed_form (delay lf steer_value throttle_value : R) (s : vehicle) :
  predict delay lf steer_value throttle_value s =
  {| px := px s + v s * cos (psi s) * delay;
     py := py s + v s * sin (psi s) * delay;
     psi := psi s - v s * steer_value / lf * delay;
     v := v s + throttle_value * delay |}.
Proof. reflexivity. Qed.

(** C5: the latency compensation of a tick is the single-step kinematic
    bicycle update of the measured pose and speed, driven by the steering
    angle and throttle reported in the telemetry, over the fixed latency of
    0.1 s with Lf = 2.67. *)
Theorem latency_compensator_bicycle_update qr mpc (j : telemetry) (out : tick) :
  onTelemetry qr mpc j = Done out ->
  predicted out =
    predict latency Lf (j_steering_angle j) (j_throttle j) (measured j) /\
  px (predicted out) = j_x j + j_speed j * cos (j_psi j) * 0.1 /\
  py (predicted out) = j_y j + j_speed j * sin (j_psi j) * 0.1 /\
  psi (predicted out) =
    j_psi j - j_speed j * j_steering_angle j / 2.67 * 0.1 /\
  v (predicted out) = j_speed j + j_throttle j * 0.1.
Proof.
  intros H. apply onTelemetry_Done in H.
  destruct H as (ptsx & ptsy & xt & yt & c & c1 & vars0 & vars1 & H).
  destruct H as (_ & _ & _ & _ & _ & _ & _ & ->).
  cbn [predicted]. rewrite predict_closed_form.
  repeat split; reflexivity.
Qed.

Lemma latency_compensator_bicycle_update_witness :
  exists out,
    onTelemetry qr_zero mpc_at_bound j_six = Done out /\
    px (predicted out) = 0 + 10 * cos 0 * 0.1 /\
    v (predicted out) = 10 + 0 * 0.1.
Proof.
  exists (proj1_sig onTelemetry_j_six).
  split; [exact (proj2_sig onTelemetry_j_six)|].
  destruct (latency_compensator_bicycle_update qr_zero mpc_at_bound j_six
              (proj1_sig onTelemetry_j_six) (proj2_sig onTelemetry_j_six))
    as (_ & Hpx & _ & _ & Hv).
  split; [exact Hpx | exact Hv].
Defined.

(** C9: with a latency of zero the compensation returns the pose and the
    speed it was given, whatever the last steering angle and throttle. *)
Theorem latency_zero_identity (lf steer_value throttle_value : R) (s : vehicle) :
  predict 0 lf steer_value throttle_value s = s.
Proof.
  rewrite predict_closed_form. destruct s as [x y h w]. cbn [px py psi v].
  f_equal; ring.
Qed.

(** C6: in every tick that completes, the coefficients are the ones the fit
    of the six transformed waypoints returned, and they start with a c0 and
    a c1; the cross-track error is the fitted polynomial evaluated at x = 0,
    which is c0, and the heading error is minus the arctangent of c1; these
    two values are what the solver is called with; both are zero when c0 and
    c1 are. *)
Theorem error_extractor qr mpc (j : telemetry) (out : tick) :
  onTelemetry qr mpc j = Done out ->
  polyfit qr (ptsx_transform out) (ptsy_transform out) 3 = Done (coeffs out) /\
  exists c0 c1 rest,
    coeffs out = c0 :: c1 :: rest /\
    cte out = polyeval (coeffs out) 0 /\
    cte out = c0 /\
    epsi out = - atan c1 /\
    state out = [0; 0; 0; v (predicted out); c0; - atan c1] /\
    vars out = mpc (state out) (coeffs out) /\
    (c0 = 0 -> c1 = 0 -> cte out = 0 /\ epsi out = 0).
Proof.
  intros H. apply onTelemetry_Done in H.
  destruct H as (ptsx & ptsy & xt & yt & c & c1 & vars0 & vars1 & H).
  destruct H as (_ & _ & _ & Hfit & Hc1 & _ & _ & ->).
  cbn [cte coeffs epsi state predicted vars ptsx_transform ptsy_transform].
  split; [exact Hfit|].
  destruct c as [|c0 [|c1' rest]]; try discriminate Hc1.
  injection Hc1 as ->.
  exists c0, c1, rest.
  assert (Hcte : polyeval (c0 :: c1 :: rest) 0 = c0)
    by (rewrite polyeval_at_zero; reflexivity).
  rewrite Hcte.
  do 6 (split; [reflexivity|]).
  intros Hc0 Hslope. split; [exact Hc0|].
  rewrite Hslope, atan_0. ring.
Qed.

Lemma error_extractor_witness :
  exists out,
    onTelemetry qr_offset mpc_at_bound j_six = Done out /\
    coeffs out = [3; 1; 0; 0] /\
    cte out = 3 /\ epsi out = - atan 1 /\
    vars out = mpc_at_bound [0; 0; 0; v (predicted out); 3; - atan 1]
                 [3; 1; 0; 0].
Proof.
  exists (proj1_sig onTelemetry_j_six_offset).
  split; [exact (proj2_sig onTelemetry_j_six_offset)|].
  destruct (error_extractor qr_offset mpc_at_bound j_six
              (proj1_sig onTelemetry_j_six_offset)
              (proj2_sig onTelemetry_j_six_offset))
    as (_ & c0 & c1 & rest & Hc & _ & Hcte & Hepsi & Hstate & Hvars & _).
  assert (Hcoeffs : coeffs (proj1_sig onTelemetry_j_six_offset) = [3; 1; 0; 0])
    by reflexivity.
  rewrite Hcoeffs in Hc. injection Hc as <- <- _.
  rewrite Hvars, Hstate, Hcoeffs.
  repeat split; assumption || reflexivity.
Defined.

(** C10: the reference-path samples of a tick are the 24 points
    (2.5 i, polyeval coeffs (2.5 i)) for i = 1, ..., 24 in increasing order,
    where polyeval is the sum of the terms c_j x^j; no sample has x = 0. *)
Theorem reference_samples qr mpc (j : telemetry) (out : tick) :
  onTelemetry qr mpc j = Done out ->
  next_x (msg out) = map (fun i => 2.5 * INR i) (seq 1 24) /\
  next_y (msg out) =
    map (fun i => polyeval (coeffs out) (2.5 * INR i)) (seq 1 24) /\
  (forall x, polyeval (coeffs out) x =
             fold_right Rplus 0
               (map (fun k => nth k (coeffs out) 0 * x ^ k)
                    (seq 0 (length (coeffs out))))) /\
  length (next_x (msg out)) = 24%nat /\
  length (next_y (msg out)) = 24%nat /\
  ~ In 0 (next_x (msg out)).
Proof.
  intros H. apply onTelemetry_Done in H.
  destruct H as (ptsx & ptsy & xt & yt & c & c1 & vars0 & vars1 & H).
  destruct H as (_ & _ & _ & _ & _ & _ & _ & ->).
  cbn [msg next_x next_y coeffs]. rewrite next_vals_map. cbn [fst snd].
  unfold poly_inc.
  split; [reflexivity|]. split; [reflexivity|].
  split.
  { intros x. unfold polyeval. rewrite polyeval_loop_sum.
    rewrite Rplus_0_l. reflexivity. }
  split; [now rewrite length_map, length_seq|].
  split; [now rewrite length_map, length_seq|].
  intros Hin. apply in_map_iff in Hin. destruct Hin as (i & Hi & Hseq).
  apply in_seq in Hseq.
  assert (0 < INR i) by (apply lt_0_INR; lia). lra.
Qed.

Lemma reference_samples_witness :
  exists out,
    onTelemetry qr_zero mpc_at_bound j_six = Done out /\
    next_x (msg out) = map (fun i => 2.5 * INR i) (seq 1 24) /\
    next_y (msg out) = map (fun i => polyeval [0; 0; 0; 0] (2.5 * INR i))
                           (seq 1 24).
Proof.
  exists (proj1_sig onTelemetry_j_six).
  split; [exact (proj2_sig onTelemetry_j_six)|].
  destruct (reference_samples qr_zero mpc_at_bound j_six
              (proj1_sig onTelemetry_j_six) (proj2_sig onTelemetry_j_six))
    as (Hx & Hy & _).
  split; [exact Hx | exact Hy].
Defined.

(** *** The coordinate transformation loop *)

Lemma vec_get_middle (done rest : list R) (a : R) :
  vec_get (done ++ a :: rest) (length done) = Done a.
Proof.
  unfold vec_get. rewrite nth_error_app2 by lia.
  rewrite Nat.sub_diag. reflexivity.
Qed.

Lemma vec_set_middle (done rest : list R) (a b : R) :
  vec_set (done ++ a :: rest) (length done) b = Done (done ++ b :: rest).
Proof.
  unfold vec_set.
  assert (Hlt : (length done <? length (done ++ a :: rest))%nat = true).
  { apply Nat.ltb_lt. rewrite length_app. simpl. lia. }
  rewrite Hlt. f_equal.
  rewrite firstn_app, Nat.sub_diag, firstn_all, firstn_O, app_nil_r.
  rewrite skipn_app, skipn_all2 by lia.
  replace (S (length done) - length done)%nat with 1%nat by lia.
  reflexivity.
Qed.

(** With as many ordinates as abscissas the loop never leaves the vectors and
    replaces every waypoint by its image under [car_x], [car_y]. *)
Lemma transform_loop_map (s : vehicle) :
  forall (n : nat) (dx dy rx ry : list R),
    length dx = length dy -> length rx = n -> length ry = n ->
    transform_loop n (length dx) s (dx ++ rx) (dy ++ ry) =
    Done (dx ++ map (car_x s) (combine rx ry),
          dy ++ map (car_y s) (combine rx ry)).
Proof.
  induction n as [|n IH]; intros dx dy rx ry Hd Hx Hy.
  - destruct rx; [|discriminate]. destruct ry; [|discriminate]. reflexivity.
  - destruct rx as [|x rx]; [discriminate|].
    destruct ry as [|y ry]; [discriminate|].
    cbn [transform_loop].
    rewrite vec_get_middle. cbn [bind].
    rewrite Hd at 1. rewrite vec_get_middle. cbn [bind].
    rewrite vec_set_middle. cbn [bind].
    rewrite Hd at 1. rewrite vec_set_middle. cbn [bind].
    set (x' := (x - px s) * cos (0 - psi s) - (y - py s) * sin (0 - psi s)).
    set (y' := (x - px s) * sin (0 - psi s) + (y - py s) * cos (0 - psi s)).
    replace (dx ++ x' :: rx) with ((dx ++ [x']) ++ rx)
      by (rewrite <- app_assoc; reflexivity).
    replace (dy ++ y' :: ry) with ((dy ++ [y']) ++ ry)
      by (rewrite <- app_assoc; reflexivity).
    replace (S (length dx)) with (length (dx ++ [x']))
      by (rewrite length_app; simpl; lia).
    rewrite IH.
    + rewrite <- !app_assoc. reflexivity.
    + rewrite !length_app. simpl. lia.
    + simpl in Hx. lia.
    + simpl in Hy. lia.
Qed.

Lemma transform_map (s : vehicle) (ptsx ptsy : list R) :
  length ptsx = length ptsy ->
  transform s ptsx ptsy =
  Done (map (car_x s) (combine ptsx ptsy), map (car_y s) (combine ptsx ptsy)).
Proof.
  intros Hlen. unfold transform.
  apply (transform_loop_map s (length ptsx) [] [] ptsx ptsy);
    [reflexivity | reflexivity | symmetry; exact Hlen].
Qed.

Lemma inverse_car_point (s : vehicle) (p : R * R) :
  map_x s (car_x s p, car_y s p) = fst p /\
  map_y s (car_x s p, car_y s p) = snd p.
Proof.
  unfold map_x, map_y, car_x, car_y. cbn [fst snd].
  replace (0 - psi s) with (- psi s) by ring.
  rewrite cos_neg, sin_neg.
  pose proof (sin2_cos2 (psi s)) as Hsc. unfold Rsqr in Hsc.
  split.
  - transitivity
      ((fst p - px s) * (sin (psi s) * sin (psi s) + cos (psi s) * cos (psi s))
       + px s); [ring | rewrite Hsc; ring].
  - transitivity
      ((snd p - py s) * (sin (psi s) * sin (psi s) + cos (psi s) * cos (psi s))
       + py s); [ring | rewrite Hsc; ring].
Qed.

(** C7: for every pose and every waypoint set (as many ordinates as
    abscissas), the transformation loop completes, and rotating its result by
    +psi and translating it by (+px, +py) gives back the original waypoints,
    exactly over the reals. *)
Theorem transform_round_trip (s : vehicle) (ptsx ptsy : list R) :
  length ptsx = length ptsy ->
  exists cx cy,
    transform s ptsx ptsy = Done (cx, cy) /\
    inverse_transform s cx cy = (ptsx, ptsy).
Proof.
  intros Hlen.
  exists (map (car_x s) (combine ptsx ptsy)), (map (car_y s) (combine ptsx ptsy)).
  split; [apply transform_map; exact Hlen|].
  unfold inverse_transform. revert ptsy Hlen.
  induction ptsx as [|x ptsx IH]; intros [|y ptsy] Hlen; try discriminate.
  - reflexivity.
  - injection Hlen as Hlen. specialize (IH ptsy Hlen).
    injection IH as IHx IHy.
    cbn [combine map].
    destruct (inverse_car_point s (x, y)) as [Hx Hy].
    rewrite Hx, Hy, IHx, IHy. reflexivity.
Qed.

Lemma transform_round_trip_witness :
  exists cx cy,
    transform {| px := 1; py := 2; psi := PI / 2; v := 10 |}
      [1; 2; 3; 4] [2; 2; 3; 5] = Done (cx, cy) /\
    inverse_transform {| px := 1; py := 2; psi := PI / 2; v := 10 |} cx cy =
    ([1; 2; 3; 4], [2; 2; 3; 5]).
Proof.
  apply (transform_round_trip {| px := 1; py := 2; psi := PI / 2; v := 10 |}
           [1; 2; 3; 4] [2; 2; 3; 5]).
  reflexivity.
Defined.

(** *** The order of prediction and transformation *)

(** C2 (as the code has it): in every tick the latency prediction is applied
    to the measured pose first; the waypoints are then rotated and translated
    with the predicted pose, the first six of them are mapped into the fit's
    input vectors, and the cubic is fitted to those. *)
Theorem prediction_then_transform qr mpc (j : telemetry) (out : tick) :
  onTelemetry qr mpc j = Done out ->
  predicted out =
    predict latency Lf (j_steering_angle j) (j_throttle j) (measured j) /\
  transform (predicted out) (j_ptsx j) (j_ptsy j) =
    Done (ptsx_car out, ptsy_car out) /\
  eigen_map (ptsx_car out) 6 = Done (ptsx_transform out) /\
  eigen_map (ptsy_car out) 6 = Done (ptsy_transform out) /\
  polyfit qr (ptsx_transform out) (ptsy_transform out) 3 = Done (coeffs out).
Proof.
  intros H. apply onTelemetry_Done in H.
  destruct H as (ptsx & ptsy & xt & yt & c & c1 & vars0 & vars1 & H).
  destruct H as (Ht & Hx & Hy & Hfit & _ & _ & _ & ->).
  cbn [predicted ptsx_car ptsy_car ptsx_transform ptsy_transform coeffs].
  repeat split; assumption || reflexivity.
Qed.

Lemma prediction_then_transform_witness :
  exists out,
    onTelemetry qr_zero mpc_at_bound j_six = Done out /\
    transform (predicted out) (j_ptsx j_six) (j_ptsy j_six) =
      Done (ptsx_car out, ptsy_car out).
Proof.
  exists (proj1_sig onTelemetry_j_six).
  split; [exact (proj2_sig onTelemetry_j_six)|].
  apply (prediction_then_transform qr_zero mpc_at_bound j_six
           (proj1_sig onTelemetry_j_six) (proj2_sig onTelemetry_j_six)).
Defined.

(** C2 (as the specification words it) fails: on the sample event the
    waypoints that reach the fit are not the frame transform of the raw
    waypoints at the measured pose. The first waypoint (1, 0) lands at x = 0
    in the tick, and at x = 1 under the measured pose. *)
Lemma transform_at_measured_pose_differs :
  exists out,
    onTelemetry qr_zero mpc_at_bound j_six = Done out /\
    spec_order_waypoints j_six <> Done (ptsx_car out, ptsy_car out).
Proof.
  exists (proj1_sig onTelemetry_j_six).
  split; [exact (proj2_sig onTelemetry_j_six)|].
  pose proof (onTelemetry_Done _ _ _ _ (proj2_sig onTelemetry_j_six)) as H.
  cbv zeta in H.
  destruct H as (ptsx & ptsy & xt & yt & c & c1 & vars0 & vars1 & H).
  destruct H as (Ht & _ & _ & _ & _ & _ & _ & ->).
  cbn [ptsx_car ptsy_car].
  rewrite transform_map in Ht by reflexivity.
  injection Ht as <- <-.
  unfold spec_order_waypoints. rewrite transform_map by reflexivity.
  intros Heq.
  assert (Hx := f_equal
            (fun o => match o with Done (l, _) => nth 0 l 0 | _ => 0 end) Heq).
  cbn [j_six j_ptsx j_ptsy combine map nth] in Hx.
  unfold car_x, predict, measured, latency, Lf in Hx.
  cbn [fst snd px py psi v j_six j_x j_y j_psi j_speed j_steering_angle
       j_throttle] in Hx.
  replace (0 - (0 - 10 * 0 / 2.67 * 0.1)) with 0 in Hx by lra.
  replace (0 - 0) with 0 in Hx by lra.
  rewrite cos_0, sin_0 in Hx. lra.
Qed.

(** *** The outbound command *)

Lemma command_sent qr mpc (j : telemetry) (out : tick) :
  onTelemetry qr mpc j = Done out ->
  vars out = mpc (state out) (coeffs out) /\
  steering_angle (msg out) = nth 0 (vars out) 0 / (deg2rad 25 * Lf) /\
  throttle (msg out) = nth 1 (vars out) 0.
Proof.
  intros H. apply onTelemetry_Done in H.
  destruct H as (ptsx & ptsy & xt & yt & c & c1 & vars0 & vars1 & H).
  destruct H as (_ & _ & _ & _ & _ & H0 & H1 & ->).
  cbn [vars state coeffs msg steering_angle throttle].
  apply vec_get_nth in H0, H1. rewrite H0, H1.
  repeat split; reflexivity.
Qed.

Lemma deg2rad_25_pos : 0 < deg2rad 25.
Proof.
  unfold deg2rad, pi. pose proof PI_RGT_0. lra.
Qed.

(** C1 (the code at a failing input): when the solver returns a steering
    value at the 25 degree bound, the command carries 1 / 2.67 and not 1: the
    handler divides by [deg2rad 25 * Lf], not by [deg2rad 25] alone. *)
Theorem steering_at_bound_is_not_unit :
  exists out,
    onTelemetry qr_zero mpc_at_bound j_six = Done out /\
    nth 0 (vars out) 0 = deg2rad 25 /\
    steering_angle (msg out) = 1 / 2.67 /\
    steering_angle (msg out) <> nth 0 (vars out) 0 / deg2rad 25.
Proof.
  exists (proj1_sig onTelemetry_j_six).
  split; [exact (proj2_sig onTelemetry_j_six)|].
  destruct (command_sent _ _ _ _ (proj2_sig onTelemetry_j_six))
    as (Hvars & Hsteer & _).
  rewrite Hsteer, Hvars. unfold mpc_at_bound. cbn [nth].
  pose proof deg2rad_25_pos as Hpos. unfold Lf.
  split; [reflexivity|].
  assert (Hs : deg2rad 25 / (deg2rad 25 * 2.67) = 1 / 2.67)
    by (field; lra).
  assert (H1 : deg2rad 25 / deg2rad 25 = 1) by (field; lra).
  rewrite Hs, H1. split; [reflexivity | lra].
Qed.

(** C4 (the code at failing inputs): with four waypoints, which the
    interface allows, the size-6 map reads past the end of the waypoint
    vectors, whatever the two solvers do; with seven waypoints the tick
    completes and the fit is given six points, the seventh left out. *)
Theorem fit_window_is_six_waypoints qr mpc :
  length (j_ptsx j_four) = 4%nat /\
  onTelemetry qr mpc j_four = OutOfBounds /\
  exists out,
    onTelemetry qr_zero mpc_at_bound j_seven = Done out /\
    length (ptsx_car out) = 7%nat /\
    length (ptsx_transform out) = 6%nat /\
    length (ptsy_transform out) = 6%nat.
Proof.
  split; [reflexivity|]. split; [reflexivity|].
  exists (proj1_sig onTelemetry_j_seven).
  split; [exact (proj2_sig onTelemetry_j_seven)|].
  repeat split; reflexivity.
Qed.

(** In a completed tick both waypoint vectors hold at least six elements and
    the fit sees exactly the first six. *)
Lemma fit_reads_first_six qr mpc (j : telemetry) (out : tick) :
  onTelemetry qr mpc j = Done out ->
  (6 <= length (ptsx_car out))%nat /\
  (6 <= length (ptsy_car out))%nat /\
  ptsx_transform out = firstn 6 (ptsx_car out) /\
  ptsy_transform out = firstn 6 (ptsy_car out).
Proof.
  intros H. apply onTelemetry_Done in H.
  destruct H as (ptsx & ptsy & xt & yt & c & c1 & vars0 & vars1 & H).
  destruct H as (_ & Hx & Hy & _ & _ & _ & _ & ->).
  cbn [ptsx_car ptsy_car ptsx_transform ptsy_transform].
  unfold eigen_map in Hx, Hy.
  destruct (6 <=? length ptsx)%nat eqn:Ex; [|discriminate].
  destruct (6 <=? length ptsy)%nat eqn:Ey; [|discriminate].
  apply Nat.leb_le in Ex, Ey.
  injection Hx as <-. injection Hy as <-.
  repeat split; assumption || reflexivity.
Qed.

(** *** [polyfit]: the design matrix and the two assertions *)

Lemma fill_row_pow (x : R) :
  forall (n i : nat) (prev : R),
    prev = x ^ i -> fill_row x prev n = map (pow x) (seq (S i) n).
Proof.
  induction n as [|n IH]; intros i prev Hprev.
  - reflexivity.
  - cbn [fill_row seq map]. subst prev.
    assert (Hnext : x ^ i * x = x ^ S i) by (simpl; ring).
    rewrite Hnext. f_equal. apply IH. reflexivity.
Qed.

Lemma design_row_pow (order : nat) (x : R) :
  design_row order x = map (pow x) (seq 0 (S order)).
Proof.
  unfold design_row. cbn [seq map]. f_equal.
  apply fill_row_pow. reflexivity.
Qed.

(** C3 (as the code has it): [polyfit] has no error value. It aborts on a
    failed assertion when the two vectors differ in size, when the order is
    below 1 or when the order exceeds the number of points minus one (points
    counted with repetitions); in every other case it returns what the QR
    solve returns for the matrix of powers of the abscissas, without looking
    at their distinctness or at the rank of the matrix. *)
Theorem polyfit_asserts_or_solves qr (xvals yvals : list R) (order : Z) :
  polyfit qr xvals yvals order =
  if ((size xvals =? size yvals) && (1 <=? order)
      && (order <=? size xvals - 1))%Z
  then Done (qr (map (fun x => map (pow x) (seq 0 (S (Z.to_nat order)))) xvals)
                yvals)
  else AssertFailed.
Proof.
  unfold polyfit, assert. rewrite Z.geb_leb.
  destruct (size xvals =? size yvals)%Z; cbn [bind andb]; [|reflexivity].
  destruct (1 <=? order)%Z; cbn [bind andb]; [|reflexivity].
  destruct (order <=? size xvals - 1)%Z; cbn [bind]; [|reflexivity].
  unfold design_matrix. do 2 f_equal.
  apply map_ext. intros x. apply design_row_pow.
Qed.

(** C3 (as the specification words it) fails twice over. Four waypoints with
    one distinct abscissa (a rank-one design matrix) are fitted like any
    others: [polyfit] returns the solver's vector. Three waypoints for a
    cubic do not yield an error value either: the assertion aborts. *)
Lemma polyfit_degenerate_inputs :
  at_most_distinct 3 [1; 1; 1; 1] /\
  polyfit qr_zero [1; 1; 1; 1] [0; 1; 2; 3] 3 =
    Done (qr_zero (design_matrix [1; 1; 1; 1] 3) [0; 1; 2; 3]) /\
  at_most_distinct 3 [0; 1; 2] /\
  polyfit qr_zero [0; 1; 2] [0; 0; 0] 3 = AssertFailed.
Proof.
  split; [|split; [|split]].
  - exists [1]. split; [|simpl; lia].
    intros a Ha. simpl in Ha. simpl. tauto.
  - reflexivity.
  - exists [0; 1; 2]. split; [apply incl_refl | simpl; lia].
  - reflexivity.
Qed.

(** *** Polynomials through given points *)

Lemma horner_padd (p q : list R) (x : R) :
  horner (padd p q) x = horner p x + horner q x.
Proof.
  revert q. induction p as [|a p IH]; intros [|b q]; simpl; try ring.
  rewrite IH. ring.
Qed.

Lemma length_padd (p q : list R) :
  length (padd p q) = Nat.max (length p) (length q).
Proof.
  revert q. induction p as [|a p IH]; intros [|b q]; simpl; try reflexivity.
  now rewrite IH.
Qed.

Lemma horner_pscale (a : R) (p : list R) (x : R) :
  horner (pscale a p) x = a * horner p x.
Proof.
  induction p as [|b p IH]; simpl; [ring|]. fold (pscale a p).
  rewrite IH. ring.
Qed.

Lemma length_pscale (a : R) (p : list R) : length (pscale a p) = length p.
Proof. apply length_map. Qed.









(** *** The least-squares objective on the design matrix *)

Lemma dot_fill_row (x : R) :
  forall (n : nat) (prev : R) (c : list R),
    length c = n -> dot (fill_row x prev n) c = prev * x * horner c x.
Proof.
  induction n as [|n IH]; intros prev [|a c] Hlen; try discriminate.
  - simpl. ring.
  - injection Hlen as Hlen. cbn [fill_row dot horner].
    rewrite (IH _ _ Hlen). ring.
Qed.

Lemma dot_design_row (order : nat) (x : R) (c : list R) :
  length c = S order -> dot (design_row order x) c = polyeval c x.
Proof.
  destruct c as [|a c]; [discriminate|]. intros Hlen. injection Hlen as Hlen.
  rewrite polyeval_horner. unfold design_row. cbn [dot horner].
  rewrite (dot_fill_row x order 1 c Hlen). ring.
Qed.

Lemma residual_nonneg (A : list (list R)) (b c : list R) :
  0 <= residual A b c.
Proof.
  revert b. induction A as [|row A IH]; intros [|bi b]; simpl; try lra.
  pose proof (Rle_0_sqr (dot row c - bi)). specialize (IH b). lra.
Qed.

Lemma residual_exact (A : list (list R)) (b c : list R) :
  Forall2 (fun row bi => dot row c = bi) A b -> residual A b c = 0.
Proof.
  induction 1 as [|row bi A b Hrow Hall IH]; simpl; [reflexivity|].
  rewrite Hrow, IH. unfold Rsqr. ring.
Qed.

Lemma residual_zero_exact (A : list (list R)) (b c : list R) :
  length A = length b -> residual A b c <= 0 ->
  Forall2 (fun row bi => dot row c = bi) A b.
Proof.
  revert b. induction A as [|row A IH]; intros [|bi b] Hlen Hres;
    try discriminate; [constructor|].
  injection Hlen as Hlen. simpl in Hres.
  pose proof (Rle_0_sqr (dot row c - bi)) as Hsq.
  pose proof (residual_nonneg A b c) as Hrest.
  constructor.
  - assert (Hz : (dot row c - bi)² = 0) by lra.
    apply Rsqr_0_uniq in Hz. lra.
  - apply IH; [exact Hlen | lra].
Qed.

Lemma Forall2_map_rows {A B C : Type} (f : A -> B) (P : B -> C -> Prop)
    (l : list A) (l' : list C) :
  Forall2 P (map f l) l' <-> Forall2 (fun a c => P (f a) c) l l'.
Proof.
  revert l'. induction l as [|a l IH]; intros l'; split; intros H.
  - inversion H; subst. constructor.
  - inversion H; subst. constructor.
  - simpl in H. inversion H; subst. constructor; [assumption|].
    apply IH. assumption.
  - inversion H; subst. simpl. constructor; [assumption|].
    apply IH. assumption.
Qed.

(** The two assertions of [polyfit] as one test. *)
Lemma polyfit_cases qr (xvals yvals : list R) (order : Z) :
  polyfit qr xvals yvals order =
  if ((size xvals =? size yvals) && (1 <=? order)
      && (order <=? size xvals - 1))%Z
  then Done (qr (design_matrix xvals (Z.to_nat order)) yvals)
  else AssertFailed.
Proof.
  unfold polyfit, assert. rewrite Z.geb_leb.
  destruct (size xvals =? size yvals)%Z; cbn [bind andb]; [|reflexivity].
  destruct (1 <=? order)%Z; cbn [bind andb]; [|reflexivity].
  destruct (order <=? size xvals - 1)%Z; reflexivity.
Qed.



(** ** Further properties of the code *)

(** *** Degrees and radians *)

(** X1: [rad2deg] and [deg2rad] are inverse to each other, and 180 degrees
    are pi radians. *)
Theorem deg2rad_rad2deg_round_trip (x : R) :
  rad2deg (deg2rad x) = x /\ deg2rad (rad2deg x) = x /\ deg2rad 180 = pi.
Proof.
  unfold rad2deg, deg2rad, pi. pose proof PI_RGT_0 as Hpi.
  repeat split; field; lra.
Qed.

(** *** [polyeval] on a split coefficient vector *)

Lemma horner_app (c1 c2 : list R) (x : R) :
  horner (c1 ++ c2) x = horner c1 x + x ^ length c1 * horner c2 x.
Proof.
  induction c1 as [|a c1 IH]; simpl; [ring|]. rewrite IH. ring.
Qed.

(** X2: evaluating a coefficient vector that is the concatenation of a low
    part and a high part adds the low part's value and x^(size of the low
    part) times the high part's value; in particular trailing zero
    coefficients change nothing. *)
Theorem polyeval_app (c1 c2 : list R) (x : R) :
  polyeval (c1 ++ c2) x = polyeval c1 x + x ^ length c1 * polyeval c2 x /\
  polyeval (c1 ++ [0]) x = polyeval c1 x.
Proof.
  rewrite !polyeval_horner, !horner_app. split; [reflexivity|].
  simpl. ring.
Qed.

(** *** The transformation loop on vectors of any two sizes *)

Lemma vec_get_past (l : list R) : vec_get l (length l) = OutOfBounds.
Proof.
  unfold vec_get.
  destruct (nth_error l (length l)) as [a|] eqn:E; [|reflexivity].
  assert (Hlt : (length l < length l)%nat)
    by (apply nth_error_Some; rewrite E; discriminate).
  lia.
Qed.

Lemma transform_loop_any (s : vehicle) :
  forall (n : nat) (dx dy rx ry : list R),
    length dx = length dy -> length rx = n ->
    transform_loop n (length dx) s (dx ++ rx) (dy ++ ry) =
    if (n <=? length ry)%nat
    then Done (dx ++ map (car_x s) (combine rx ry),
               dy ++ map (car_y s) (combine rx ry) ++ skipn n ry)
    else OutOfBounds.
Proof.
  induction n as [|n IH]; intros dx dy rx ry Hd Hx.
  - destruct rx; [|discriminate]. simpl. rewrite app_nil_r. reflexivity.
  - destruct rx as [|x rx]; [discriminate|].
    cbn [transform_loop]. rewrite vec_get_middle. cbn [bind].
    destruct ry as [|y ry].
    + rewrite app_nil_r, Hd, vec_get_past. reflexivity.
    + rewrite Hd at 1. rewrite vec_get_middle. cbn [bind].
      rewrite vec_set_middle. cbn [bind].
      rewrite Hd at 1. rewrite vec_set_middle. cbn [bind].
      set (x' := (x - px s) * cos (0 - psi s) - (y - py s) * sin (0 - psi s)).
      set (y' := (x - px s) * sin (0 - psi s) + (y - py s) * cos (0 - psi s)).
      replace (dx ++ x' :: rx) with ((dx ++ [x']) ++ rx)
        by (rewrite <- app_assoc; reflexivity).
      replace (dy ++ y' :: ry) with ((dy ++ [y']) ++ ry)
        by (rewrite <- app_assoc; reflexivity).
      replace (S (length dx)) with (length (dx ++ [x']))
        by (rewrite length_app; simpl; lia).
      rewrite IH.
      * cbn [length Nat.leb combine map skipn].
        destruct (n <=? length ry)%nat; [|reflexivity].
        rewrite <- !app_assoc. reflexivity.
      * rewrite !length_app. simpl. lia.
      * simpl in Hx. lia.
Qed.

(** X3: the transformation loop runs over the abscissas. With fewer
    ordinates than abscissas it reads past the end of [ptsy]; otherwise it
    completes, every waypoint is replaced by its car-frame image, and the
    ordinates beyond the last abscissa are left as they were. *)
Theorem transform_by_sizes (s : vehicle) (ptsx ptsy : list R) :
  transform s ptsx ptsy =
  if (length ptsx <=? length ptsy)%nat
  then Done (map (car_x s) (combine ptsx ptsy),
             map (car_y s) (combine ptsx ptsy) ++ skipn (length ptsx) ptsy)
  else OutOfBounds.
Proof.
  unfold transform.
  apply (transform_loop_any s (length ptsx) [] [] ptsx ptsy);
    reflexivity.
Qed.

Lemma transform_cases (s : vehicle) (ptsx ptsy : list R) :
  transform s ptsx ptsy =
  if (length ptsx <=? length ptsy)%nat
  then Done (map (car_x s) (combine ptsx ptsy),
             map (car_y s) (combine ptsx ptsy) ++ skipn (length ptsx) ptsy)
  else OutOfBounds.
Proof.
  unfold transform.
  apply (transform_loop_any s (length ptsx) [] [] ptsx ptsy); reflexivity.
Qed.

(** *** The transform keeps distances *)

Lemma nth_map_combine (f : R * R -> R) (xs ys : list R) (i : nat) :
  length xs = length ys -> (i < length xs)%nat ->
  nth i (map f (combine xs ys)) 0 = f (nth i xs 0, nth i ys 0).
Proof.
  intros Hlen Hi.
  rewrite (nth_indep _ 0 (f (0, 0)))
    by (rewrite length_map, length_combine; lia).
  rewrite map_nth, combine_nth by exact Hlen. reflexivity.
Qed.

Lemma car_norm (s : vehicle) (a b : R) :
  (a * cos (0 - psi s) - b * sin (0 - psi s))² +
  (a * sin (0 - psi s) + b * cos (0 - psi s))² = a² + b².
Proof.
  pose proof (sin2_cos2 (0 - psi s)) as Hsc. unfold Rsqr in *.
  transitivity ((a * a + b * b) *
                (sin (0 - psi s) * sin (0 - psi s) +
                 cos (0 - psi s) * cos (0 - psi s))); [ring|].
  rewrite Hsc. ring.
Qed.

(** X4: the frame transform is a rigid motion. For a waypoint set with as
    many ordinates as abscissas the loop completes, keeps the number of
    waypoints, maps every waypoint as far from the car-frame origin as it
    was from the vehicle, and keeps the distance between any two waypoints. *)
Theorem transform_isometry (s : vehicle) (ptsx ptsy : list R) :
  length ptsx = length ptsy ->
  exists cx cy,
    transform s ptsx ptsy = Done (cx, cy) /\
    length cx = length ptsx /\ length cy = length ptsx /\
    (forall i, (i < length ptsx)%nat ->
       (nth i cx 0)² + (nth i cy 0)² =
       (nth i ptsx 0 - px s)² + (nth i ptsy 0 - py s)²) /\
    (forall i k, (i < length ptsx)%nat -> (k < length ptsx)%nat ->
       (nth i cx 0 - nth k cx 0)² + (nth i cy 0 - nth k cy 0)² =
       (nth i ptsx 0 - nth k ptsx 0)² + (nth i ptsy 0 - nth k ptsy 0)²).
Proof.
  intros Hlen.
  exists (map (car_x s) (combine ptsx ptsy)), (map (car_y s) (combine ptsx ptsy)).
  split; [apply transform_map; exact Hlen|].
  split; [rewrite length_map, length_combine; lia|].
  split; [rewrite length_map, length_combine; lia|].
  split.
  - intros i Hi. rewrite !nth_map_combine by assumption.
    unfold car_x, car_y. cbn [fst snd]. apply car_norm.
  - intros i k Hi Hk. rewrite !nth_map_combine by assumption.
    unfold car_x, car_y. cbn [fst snd].
    rewrite <- (car_norm s (nth i ptsx 0 - nth k ptsx 0)
                           (nth i ptsy 0 - nth k ptsy 0)).
    f_equal; f_equal; ring.
Qed.

Lemma transform_isometry_witness :
  exists cx cy,
    transform {| px := 1; py := 2; psi := PI / 3; v := 10 |}
      [1; 4] [2; 6] = Done (cx, cy) /\
    (nth 1 cx 0)² + (nth 1 cy 0)² = (4 - 1)² + (6 - 2)².
Proof.
  destruct (transform_isometry {| px := 1; py := 2; psi := PI / 3; v := 10 |}
              [1; 4] [2; 6] eq_refl)
    as (cx & cy & Ht & _ & _ & Hnorm & _).
  exists cx, cy. split; [exact Ht|].
  apply (Hnorm 1%nat). simpl. lia.
Defined.

(** *** The MPC trajectory loop *)

Lemma mod2_succ (i : nat) :
  (S i mod 2 =? 0)%nat = negb (i mod 2 =? 0)%nat.
Proof.
  pose proof (Nat.mod_upper_bound i 2 ltac:(lia)) as Hi.
  pose proof (Nat.mod_upper_bound (S i) 2 ltac:(lia)) as Hs.
  pose proof (Nat.div_mod_eq i 2) as Ei.
  pose proof (Nat.div_mod_eq (S i) 2) as Es.
  destruct (Nat.eqb_spec (S i mod 2) 0), (Nat.eqb_spec (i mod 2) 0);
    simpl; try reflexivity; lia.
Qed.

Lemma mpc_vals_loop_alternate :
  forall (rest : list R) (i : nat) (mx my : list R),
    mpc_vals_loop rest i mx my =
    if (i mod 2 =? 0)%nat
    then (mx ++ fst (alternate rest), my ++ snd (alternate rest))
    else (mx ++ snd (alternate rest), my ++ fst (alternate rest)).
Proof.
  induction rest as [|a rest IH]; intros i mx my.
  - cbn [mpc_vals_loop alternate fst snd]. rewrite !app_nil_r.
    destruct (i mod 2 =? 0)%nat; reflexivity.
  - cbn [mpc_vals_loop alternate fst snd].
    destruct (i mod 2 =? 0)%nat eqn:E; rewrite IH, mod2_succ, E;
      cbn [negb]; rewrite <- !app_assoc; reflexivity.
Qed.

Lemma nth_alternate :
  forall (l : list R) (k : nat),
    nth k (fst (alternate l)) 0 = nth (2 * k) l 0 /\
    nth k (snd (alternate l)) 0 = nth (2 * k + 1) l 0.
Proof.
  induction l as [|a l IH]; intros k.
  - simpl. destruct k; split; reflexivity.
  - cbn [alternate fst snd]. split.
    + destruct k as [|k]; [reflexivity|].
      replace (2 * S k)%nat with (S (2 * k + 1)) by lia.
      cbn [nth]. apply IH.
    + replace (2 * k + 1)%nat with (S (2 * k)) by lia.
      cbn [nth]. apply IH.
Qed.

Lemma length_alternate :
  forall l : list R,
    length (fst (alternate l)) = Nat.div2 (S (length l)) /\
    length (snd (alternate l)) = Nat.div2 (length l).
Proof.
  induction l as [|a l [IHf IHs]]; [split; reflexivity|].
  cbn [alternate fst snd length]. split.
  - rewrite IHs. reflexivity.
  - exact IHf.
Qed.

(** X5: the trajectory loop deals the solver's vector out by index parity:
    [mpc_x] receives [vars[2], vars[4], ...] and [mpc_y] receives
    [vars[3], vars[5], ...], in order; with an odd number of entries [mpc_x]
    is one element longer than [mpc_y], and with fewer than three entries
    both are empty. *)
Theorem mpc_vals_by_parity (vars : list R) :
  (forall k, nth k (fst (mpc_vals vars)) 0 = nth (2 + 2 * k) vars 0) /\
  (forall k, nth k (snd (mpc_vals vars)) 0 = nth (3 + 2 * k) vars 0) /\
  length (fst (mpc_vals vars)) = Nat.div2 (S (length vars - 2)) /\
  length (snd (mpc_vals vars)) = Nat.div2 (length vars - 2).
Proof.
  unfold mpc_vals. rewrite mpc_vals_loop_alternate.
  change ((2 mod 2 =? 0)%nat) with true. cbn [app fst snd].
  destruct (length_alternate (skipn 2 vars)) as [Lf' Ls'].
  rewrite length_skipn in Lf', Ls'.
  repeat split.
  - intros k. destruct (nth_alternate (skipn 2 vars) k) as [Hk _].
    rewrite Hk, nth_skipn. reflexivity.
  - intros k. destruct (nth_alternate (skipn 2 vars) k) as [_ Hk].
    rewrite Hk, nth_skipn. f_equal. lia.
  - exact Lf'.
  - exact Ls'.
Qed.

(** *** When the handler completes *)

Lemma vec_get_below (l : list R) (i : nat) :
  (i < length l)%nat -> exists a, vec_get l i = Done a.
Proof.
  intros Hi. unfold vec_get.
  destruct (nth_error l i) as [a|] eqn:E; [exists a; reflexivity|].
  apply nth_error_None in E. lia.
Qed.

Lemma vec_get_cases (l : list R) (i : nat) :
  vec_get l i = OutOfBounds \/ exists a, vec_get l i = Done a.
Proof.
  unfold vec_get. destruct (nth_error l i) as [a|];
    [right; exists a; reflexivity | left; reflexivity].
Qed.

Lemma eigen_map_Done (l xt : list R) (n : nat) :
  eigen_map l n = Done xt <-> (n <= length l)%nat /\ xt = firstn n l.
Proof.
  unfold eigen_map. destruct (Nat.leb_spec n (length l)) as [Hn|Hn]; split.
  - intros Heq. injection Heq as <-. split; [assumption | reflexivity].
  - intros [_ ->]. reflexivity.
  - discriminate.
  - intros [Hle _]. lia.
Qed.

Lemma polyfit_six qr (xt yt : list R) :
  length xt = 6%nat -> length yt = 6%nat ->
  polyfit qr xt yt 3 = Done (qr (design_matrix xt 3) yt).
Proof.
  intros Hx Hy. rewrite polyfit_cases. unfold size. rewrite Hx, Hy.
  reflexivity.
Qed.

(** The converse of [onTelemetry_Done]: steps that complete make a run. *)
Lemma onTelemetry_complete qr mpc (j : telemetry)
    (ptsx ptsy xt yt c : list R) (c1 vars0 vars1 : R) :
  let s := predict latency Lf (j_steering_angle j) (j_throttle j) (measured j) in
  transform s (j_ptsx j) (j_ptsy j) = Done (ptsx, ptsy) ->
  eigen_map ptsx 6 = Done xt ->
  eigen_map ptsy 6 = Done yt ->
  polyfit qr xt yt 3 = Done c ->
  vec_get c 1 = Done c1 ->
  vec_get (mpc [0; 0; 0; v s; polyeval c 0; - atan c1] c) 0 = Done vars0 ->
  vec_get (mpc [0; 0; 0; v s; polyeval c 0; - atan c1] c) 1 = Done vars1 ->
  onTelemetry qr mpc j =
  Done {| predicted := s;
          ptsx_car := ptsx; ptsy_car := ptsy;
          ptsx_transform := xt; ptsy_transform := yt;
          coeffs := c;
          cte := polyeval c 0;
          epsi := - atan c1;
          state := [0; 0; 0; v s; polyeval c 0; - atan c1];
          vars := mpc [0; 0; 0; v s; polyeval c 0; - atan c1] c;
          msg := {| steering_angle := vars0 / (deg2rad 25 * Lf);
                    throttle := vars1;
                    mpc_x := fst (mpc_vals (mpc [0; 0; 0; v s; polyeval c 0; - atan c1] c));
                    mpc_y := snd (mpc_vals (mpc [0; 0; 0; v s; polyeval c 0; - atan c1] c));
                    next_x := fst (next_vals c);
                    next_y := snd (next_vals c) |} |}.
Proof.
  intros s Ht Hx Hy Hfit Hc1 H0 H1.
  unfold onTelemetry. fold (measured j). fold s.
  rewrite Ht. cbn [bind]. rewrite Hx. cbn [bind]. rewrite Hy. cbn [bind].
  rewrite Hfit. cbn [bind]. rewrite Hc1. cbn [bind].
  destruct (next_vals c) as [nx ny].
  destruct (mpc_vals (mpc [0; 0; 0; v s; polyeval c 0; - atan c1] c))
    as [mx my].
  rewrite H0. cbn [bind]. rewrite H1. reflexivity.
Qed.

(** What a completed run says about the sizes of the waypoint vectors and
    about the points that reached the fit. *)
Lemma onTelemetry_fit_inputs qr mpc (j : telemetry) (out : tick) :
  onTelemetry qr mpc j = Done out ->
  let s := predict latency Lf (j_steering_angle j) (j_throttle j) (measured j) in
  (6 <= length (j_ptsx j))%nat /\
  (length (j_ptsx j) <= length (j_ptsy j))%nat /\
  predicted out = s /\
  ptsx_transform out = firstn 6 (map (car_x s) (combine (j_ptsx j) (j_ptsy j))) /\
  ptsy_transform out = firstn 6 (map (car_y s) (combine (j_ptsx j) (j_ptsy j))).
Proof.
  intros H s. apply onTelemetry_Done in H. fold s in H.
  destruct H as (ptsx & ptsy & xt & yt & c & c1 & vars0 & vars1 & H).
  destruct H as (Ht & Hx & Hy & _ & _ & _ & _ & ->).
  cbn [predicted ptsx_transform ptsy_transform].
  rewrite transform_cases in Ht.
  destruct (Nat.leb_spec (length (j_ptsx j)) (length (j_ptsy j))) as [Hle|];
    [|discriminate].
  injection Ht as <- <-.
  apply eigen_map_Done in Hx, Hy. destruct Hx as [Hx ->], Hy as [_ ->].
  rewrite length_map, length_combine in Hx.
  repeat split; try lia.
  rewrite firstn_app, length_map, length_combine.
  replace (6 - Nat.min (length (j_ptsx j)) (length (j_ptsy j)))%nat
    with 0%nat by lia.
  rewrite firstn_O, app_nil_r. reflexivity.
Qed.

(** X6: the handler never fails on an assertion. Its only call of [polyfit]
    passes two vectors of six elements and the order 3, so every run either
    completes or reads past the end of a vector. *)
Theorem onTelemetry_never_asserts qr mpc (j : telemetry) :
  (exists out, onTelemetry qr mpc j = Done out) \/
  onTelemetry qr mpc j = OutOfBounds.
Proof.
  unfold onTelemetry. fold (measured j).
  set (s := predict latency Lf (j_steering_angle j) (j_throttle j) (measured j)).
  rewrite transform_cases.
  destruct (length (j_ptsx j) <=? length (j_ptsy j))%nat;
    [|right; reflexivity].
  cbn [bind].
  destruct (eigen_map (map (car_x s) (combine (j_ptsx j) (j_ptsy j))) 6)
    as [xt| |] eqn:Ex; cbn [bind];
    [|unfold eigen_map in Ex; destruct (_ <=? _)%nat; discriminate
     |right; reflexivity].
  destruct (eigen_map (map (car_y s) (combine (j_ptsx j) (j_ptsy j))
                       ++ skipn (length (j_ptsx j)) (j_ptsy j)) 6)
    as [yt| |] eqn:Ey; cbn [bind];
    [|unfold eigen_map in Ey; destruct (_ <=? _)%nat; discriminate
     |right; reflexivity].
  apply eigen_map_Done in Ex, Ey.
  destruct Ex as [Hx ->], Ey as [Hy ->].
  rewrite polyfit_six by (rewrite length_firstn; lia). cbn [bind].
  match goal with
  | |- context [vec_get ?c 1] =>
      destruct (vec_get_cases c 1) as [E|[c1 E]]; rewrite E; cbn [bind];
      [right; reflexivity|]
  end.
  destruct (next_vals _) as [nx ny]. destruct (mpc_vals _) as [mx my].
  match goal with
  | |- context [vec_get ?l 0] =>
      destruct (vec_get_cases l 0) as [E0|[a0 E0]]; rewrite E0; cbn [bind];
      [right; reflexivity|];
      destruct (vec_get_cases l 1) as [E1|[a1 E1]]; rewrite E1; cbn [bind];
      [right; reflexivity|]
  end.
  left. eexists. reflexivity.
Qed.

(** X7: an event with fewer than six abscissas or fewer than six ordinates
    makes the handler read past the end of a waypoint vector, whatever the
    two solvers do. *)
Theorem fewer_than_six_waypoints qr mpc (j : telemetry) :
  (length (j_ptsx j) < 6)%nat \/ (length (j_ptsy j) < 6)%nat ->
  onTelemetry qr mpc j = OutOfBounds.
Proof.
  intros Hshort. unfold onTelemetry. fold (measured j).
  rewrite transform_cases.
  destruct (Nat.leb_spec (length (j_ptsx j)) (length (j_ptsy j))) as [Hle|];
    [|reflexivity].
  cbn [bind]. unfold eigen_map at 1.
  rewrite length_map, length_combine.
  destruct (Nat.leb_spec 6 (Nat.min (length (j_ptsx j)) (length (j_ptsy j))));
    [lia | reflexivity].
Qed.

Lemma fewer_than_six_waypoints_witness :
  onTelemetry qr_zero mpc_at_bound j_five = OutOfBounds.
Proof.
  apply (fewer_than_six_waypoints qr_zero mpc_at_bound j_five).
  left. simpl. lia.
Defined.

(** X8: an event with at least six abscissas and at least as many ordinates
    always completes, provided the QR solve returns at least two
    coefficients and the MPC solver at least two values; the message then
    carries the solver's second value as the throttle, unscaled. *)
Theorem onTelemetry_completes qr mpc (j : telemetry) :
  (6 <= length (j_ptsx j))%nat ->
  (length (j_ptsx j) <= length (j_ptsy j))%nat ->
  (forall A b, (2 <= length (qr A b))%nat) ->
  (forall st c, (2 <= length (mpc st c))%nat) ->
  exists out,
    onTelemetry qr mpc j = Done out /\
    length (ptsx_transform out) = 6%nat /\
    length (ptsy_transform out) = 6%nat /\
    throttle (msg out) = nth 1 (mpc (state out) (coeffs out)) 0.
Proof.
  intros H6 Hle Hqr Hmpc.
  set (s := predict latency Lf (j_steering_angle j) (j_throttle j) (measured j)).
  set (cx := map (car_x s) (combine (j_ptsx j) (j_ptsy j))).
  set (cy := map (car_y s) (combine (j_ptsx j) (j_ptsy j))
             ++ skipn (length (j_ptsx j)) (j_ptsy j)).
  assert (Ht : transform s (j_ptsx j) (j_ptsy j) = Done (cx, cy)).
  { rewrite transform_cases.
    destruct (Nat.leb_spec (length (j_ptsx j)) (length (j_ptsy j)));
      [reflexivity | lia]. }
  assert (Lx : (6 <= length cx)%nat)
    by (unfold cx; rewrite length_map, length_combine; lia).
  assert (Ly : (6 <= length cy)%nat)
    by (unfold cy; rewrite length_app, length_map, length_combine; lia).
  assert (Hx : eigen_map cx 6 = Done (firstn 6 cx))
    by (apply eigen_map_Done; split; [exact Lx | reflexivity]).
  assert (Hy : eigen_map cy 6 = Done (firstn 6 cy))
    by (apply eigen_map_Done; split; [exact Ly | reflexivity]).
  assert (Hfit := polyfit_six qr (firstn 6 cx) (firstn 6 cy)
                    ltac:(rewrite length_firstn; lia)
                    ltac:(rewrite length_firstn; lia)).
  set (c := qr (design_matrix (firstn 6 cx) 3) (firstn 6 cy)) in *.
  destruct (vec_get_below c 1 (Hqr _ _)) as [c1 Hc1].
  set (st := [0; 0; 0; v s; polyeval c 0; - atan c1]).
  destruct (vec_get_below (mpc st c) 0) as [a0 H0];
    [specialize (Hmpc st c); lia|].
  destruct (vec_get_below (mpc st c) 1 (Hmpc _ _)) as [a1 H1].
  eexists. split.
  - exact (onTelemetry_complete qr mpc j cx cy _ _ c c1 a0 a1
             Ht Hx Hy Hfit Hc1 H0 H1).
  - cbn [ptsx_transform ptsy_transform msg throttle state coeffs].
    rewrite !length_firstn. apply vec_get_nth in H1.
    repeat split; try lia. symmetry. exact H1.
Qed.

Lemma onTelemetry_completes_witness :
  exists out,
    onTelemetry qr_zero mpc_at_bound j_seven = Done out /\
    length (ptsx_transform out) = 6%nat /\
    length (ptsy_transform out) = 6%nat /\
    throttle (msg out) = nth 1 (mpc_at_bound (state out) (coeffs out)) 0.
Proof.
  apply (onTelemetry_completes qr_zero mpc_at_bound j_seven).
  - simpl. lia.
  - simpl. lia.
  - intros A b. simpl. lia.
  - intros st c. simpl. lia.
Defined.

(** *** What the command depends on *)

(** Two events whose predicted speeds agree and whose transformed waypoints
    put the same six points into the fit produce the same fit, errors, solver
    call and message. *)
Lemma onTelemetry_same_fit qr mpc (j j' : telemetry) (out : tick)
    (cx' cy' : list R) :
  onTelemetry qr mpc j = Done out ->
  v (predict latency Lf (j_steering_angle j') (j_throttle j') (measured j')) =
    v (predicted out) ->
  transform (predict latency Lf (j_steering_angle j') (j_throttle j')
               (measured j'))
    (j_ptsx j') (j_ptsy j') = Done (cx', cy') ->
  eigen_map cx' 6 = Done (ptsx_transform out) ->
  eigen_map cy' 6 = Done (ptsy_transform out) ->
  exists out',
    onTelemetry qr mpc j' = Done out' /\
    msg out' = msg out /\ coeffs out' = coeffs out /\
    state out' = state out /\ vars out' = vars out.
Proof.
  intros H Hv Ht' Hx' Hy'. apply onTelemetry_Done in H. cbv zeta in H.
  destruct H as (ptsx & ptsy & xt & yt & c & c1 & vars0 & vars1 & H).
  destruct H as (_ & _ & _ & Hfit & Hc1 & H0 & H1 & ->).
  cbn [predicted ptsx_transform ptsy_transform] in Hv, Hx', Hy'.
  rewrite <- Hv in H0, H1.
  eexists. split.
  - exact (onTelemetry_complete qr mpc j' cx' cy' xt yt c c1 vars0 vars1
             Ht' Hx' Hy' Hfit Hc1 H0 H1).
  - cbn [msg coeffs state vars]. rewrite Hv. repeat split; reflexivity.
Qed.

(** X9: only the first six waypoints count. Whenever a tick completes, the
    tick on the same event cut down to its first six waypoints completes
    too, with the same coefficients, the same state and solver output and
    the same outbound message. *)
Theorem only_first_six_waypoints_count qr mpc (j : telemetry) (out : tick) :
  onTelemetry qr mpc j = Done out ->
  exists out',
    onTelemetry qr mpc (first_six j) = Done out' /\
    msg out' = msg out /\ coeffs out' = coeffs out /\
    state out' = state out /\ vars out' = vars out.
Proof.
  intros H.
  destruct (onTelemetry_fit_inputs qr mpc j out H)
    as (H6 & Hle & Hs & Hxt & Hyt).
  set (s := predict latency Lf (j_steering_angle j) (j_throttle j) (measured j))
    in *.
  set (xs := firstn 6 (j_ptsx j)). set (ys := firstn 6 (j_ptsy j)).
  assert (Lx : length xs = 6%nat) by (unfold xs; rewrite length_firstn; lia).
  assert (Ly : length ys = 6%nat) by (unfold ys; rewrite length_firstn; lia).
  apply (onTelemetry_same_fit qr mpc j (first_six j) out
           (map (car_x s) (combine xs ys))
           (map (car_y s) (combine xs ys) ++ skipn (length xs) ys) H).
  - rewrite Hs. reflexivity.
  - change (transform s xs ys =
            Done (map (car_x s) (combine xs ys),
                  map (car_y s) (combine xs ys) ++ skipn (length xs) ys)).
    rewrite transform_cases, Lx, Ly. reflexivity.
  - apply eigen_map_Done. rewrite length_map, length_combine, Lx, Ly.
    split; [simpl; lia|].
    rewrite Hxt.
    rewrite (@firstn_all2 R 6 (map (car_x s) (combine xs ys)))
      by (rewrite length_map, length_combine; lia).
    unfold xs, ys. rewrite <- combine_firstn, firstn_map. reflexivity.
  - apply eigen_map_Done.
    rewrite length_app, length_map, length_combine, Lx, Ly.
    split; [simpl; lia|].
    rewrite skipn_all2 by lia. rewrite app_nil_r.
    rewrite Hyt.
    rewrite (@firstn_all2 R 6 (map (car_y s) (combine xs ys)))
      by (rewrite length_map, length_combine; lia).
    unfold xs, ys. rewrite <- combine_firstn, firstn_map. reflexivity.
Qed.

Lemma only_first_six_waypoints_count_witness :
  exists out out',
    onTelemetry qr_zero mpc_at_bound j_seven = Done out /\
    onTelemetry qr_zero mpc_at_bound (first_six j_seven) = Done out' /\
    msg out' = msg out.
Proof.
  destruct (only_first_six_waypoints_count qr_zero mpc_at_bound j_seven
              (proj1_sig onTelemetry_j_seven) (proj2_sig onTelemetry_j_seven))
    as (out' & Hrun & Hmsg & _).
  exists (proj1_sig onTelemetry_j_seven), out'.
  split; [exact (proj2_sig onTelemetry_j_seven)|].
  split; [exact Hrun | exact Hmsg].
Defined.

Lemma car_translate (dx dy : R) (s s' : vehicle) :
  px s' = dx + px s -> py s' = dy + py s -> psi s' = psi s ->
  forall xs ys : list R,
    map (car_x s') (combine (map (Rplus dx) xs) (map (Rplus dy) ys)) =
      map (car_x s) (combine xs ys) /\
    map (car_y s') (combine (map (Rplus dx) xs) (map (Rplus dy) ys)) =
      map (car_y s) (combine xs ys).
Proof.
  intros Hpx Hpy Hpsi.
  induction xs as [|x xs IH]; intros [|y ys]; try (split; reflexivity).
  destruct (IH ys) as [IHx IHy].
  cbn [map combine]. rewrite IHx, IHy.
  unfold car_x, car_y. cbn [fst snd]. rewrite Hpx, Hpy, Hpsi.
  split; f_equal; ring.
Qed.

(** X10: the command does not depend on where the origin of the map frame
    is. Whenever a tick completes, the tick on the event with the vehicle
    position and every waypoint displaced by the same (dx, dy) completes too,
    with the same coefficients, state, solver output and message. *)
Theorem command_translation_invariant qr mpc (dx dy : R) (j : telemetry)
    (out : tick) :
  onTelemetry qr mpc j = Done out ->
  exists out',
    onTelemetry qr mpc (translate dx dy j) = Done out' /\
    msg out' = msg out /\ coeffs out' = coeffs out /\
    state out' = state out /\ vars out' = vars out.
Proof.
  intros H.
  destruct (onTelemetry_fit_inputs qr mpc j out H)
    as (H6 & Hle & Hs & Hxt & Hyt).
  set (s := predict latency Lf (j_steering_angle j) (j_throttle j) (measured j))
    in *.
  set (s' := predict latency Lf (j_steering_angle (translate dx dy j))
               (j_throttle (translate dx dy j)) (measured (translate dx dy j))).
  destruct (car_translate dx dy s s') with (xs := j_ptsx j) (ys := j_ptsy j)
    as [Ecx Ecy].
  { unfold s, s'. cbn. ring. }
  { unfold s, s'. cbn. ring. }
  { reflexivity. }
  apply (onTelemetry_same_fit qr mpc j (translate dx dy j) out
           (map (car_x s) (combine (j_ptsx j) (j_ptsy j)))
           (map (car_y s) (combine (j_ptsx j) (j_ptsy j))
            ++ skipn (length (j_ptsx j)) (map (Rplus dy) (j_ptsy j))) H).
  - rewrite Hs. reflexivity.
  - fold s'. rewrite transform_cases.
    cbn [translate j_ptsx j_ptsy]. rewrite !length_map.
    destruct (Nat.leb_spec (length (j_ptsx j)) (length (j_ptsy j))); [|lia].
    rewrite Ecx, Ecy. reflexivity.
  - apply eigen_map_Done. rewrite length_map, length_combine.
    split; [lia | exact Hxt].
  - apply eigen_map_Done. rewrite length_app, length_map, length_combine.
    split; [lia|].
    rewrite firstn_app, length_map, length_combine.
    replace (6 - Nat.min (length (j_ptsx j)) (length (j_ptsy j)))%nat
      with 0%nat by lia.
    rewrite firstn_O, app_nil_r. exact Hyt.
Qed.

Lemma command_translation_invariant_witness :
  exists out out',
    onTelemetry qr_zero mpc_at_bound j_six = Done out /\
    onTelemetry qr_zero mpc_at_bound (translate 100 (-50) j_six) = Done out' /\
    msg out' = msg out.
Proof.
  destruct (command_translation_invariant qr_zero mpc_at_bound 100 (-50) j_six
              (proj1_sig onTelemetry_j_six) (proj2_sig onTelemetry_j_six))
    as (out' & Hrun & Hmsg & _).
  exists (proj1_sig onTelemetry_j_six), out'.
  split; [exact (proj2_sig onTelemetry_j_six)|].
  split; [exact Hrun | exact Hmsg].
Defined.

(** *** A polynomial with enough roots is zero *)

Lemma quot_spec (r : R) (d : list R) (x : R) :
  horner d x - horner d r = (x - r) * horner (quot r d) x.
Proof.
  induction d as [|a d IH]; cbn [horner quot]; [ring|].
  rewrite horner_padd, horner_pscale.
  transitivity ((x - r) * horner d x + r * ((x - r) * horner (quot r d) x));
    [rewrite <- IH|]; ring.
Qed.

Lemma length_quot (r : R) (d : list R) :
  length (quot r d) = Nat.pred (length d).
Proof.
  induction d as [|a d IH]; [reflexivity|].
  cbn [quot length Nat.pred]. rewrite length_padd, length_pscale, IH. lia.
Qed.

Lemma roots_zero_function :
  forall (rs d : list R),
    NoDup rs -> (length d <= length rs)%nat ->
    (forall r, In r rs -> horner d r = 0) ->
    forall x, horner d x = 0.
Proof.
  induction rs as [|r rs IH]; intros d Hnd Hlen Hroots x.
  - destruct d; [reflexivity | simpl in Hlen; lia].
  - inversion Hnd as [|? ? Hnin Hnd']; subst.
    assert (Hq : forall y, horner (quot r d) y = 0).
    { apply IH; [exact Hnd' | |].
      - rewrite length_quot. simpl in Hlen. lia.
      - intros r' Hin.
        pose proof (quot_spec r d r') as E.
        rewrite (Hroots r' (or_intror Hin)), (Hroots r (or_introl eq_refl)) in E.
        assert (Hne : r' - r <> 0) by (intros Heq; apply Hnin;
          replace r with r' by lra; exact Hin).
        assert (Hz : (r' - r) * horner (quot r d) r' = 0) by lra.
        apply Rmult_integral in Hz. destruct Hz; [contradiction | assumption]. }
    pose proof (quot_spec r d x) as E.
    rewrite (Hroots r (or_introl eq_refl)), Hq in E. lra.
Qed.

Lemma NoDup_INR_seq (a n : nat) : NoDup (map INR (seq a n)).
Proof.
  revert a. induction n as [|n IH]; intros a; cbn [seq map]; constructor.
  - intros Hin. apply in_map_iff in Hin. destruct Hin as (b & Hb & Hin).
    apply INR_eq in Hb. apply in_seq in Hin. lia.
  - apply IH.
Qed.

Lemma zero_function_coefficients (d : list R) :
  (forall x, horner d x = 0) -> Forall (eq 0) d.
Proof.
  induction d as [|a d IH]; intros Hz; constructor.
  - specialize (Hz 0). simpl in Hz. lra.
  - apply IH.
    apply (roots_zero_function (map INR (seq 1 (length d))) d).
    + apply NoDup_INR_seq.
    + rewrite length_map, length_seq. lia.
    + intros r Hin. apply in_map_iff in Hin. destruct Hin as (n & <- & Hin).
      apply in_seq in Hin.
      assert (Hpos : 0 < INR n) by (apply lt_0_INR; lia).
      pose proof (Hz (INR n)) as E. pose proof (Hz 0) as E0.
      simpl in E, E0.
      assert (Hm : INR n * horner d (INR n) = 0) by lra.
      apply Rmult_integral in Hm. destruct Hm; [lra | assumption].
Qed.

Lemma padd_opposite_zero :
  forall c p : list R,
    length c = length p ->
    Forall (eq 0) (padd c (pscale (-1) p)) -> c = p.
Proof.
  induction c as [|a c IH]; intros [|b p] Hlen Hall; try discriminate.
  - reflexivity.
  - injection Hlen as Hlen. cbn [pscale map padd] in Hall.
    inversion Hall as [|? ? Hab Hrest]; subst.
    f_equal; [lra | apply IH; assumption].
Qed.

(** Two coefficient vectors of the same size that agree, as polynomials, at
    as many distinct points as they have coefficients are equal. *)
Lemma coefficients_unique (c p ds : list R) :
  length c = length p -> NoDup ds -> (length p <= length ds)%nat ->
  (forall x, In x ds -> polyeval c x = polyeval p x) -> c = p.
Proof.
  intros Hlen Hnd Hds Hagree.
  apply padd_opposite_zero; [exact Hlen|].
  apply zero_function_coefficients.
  apply (roots_zero_function ds); [exact Hnd | |].
  - rewrite length_padd, length_pscale. lia.
  - intros r Hin. rewrite horner_padd, horner_pscale.
    rewrite <- !polyeval_horner, (Hagree r Hin). ring.
Qed.

Lemma Forall2_map_values (f g : R -> R) (xs : list R) :
  Forall2 (fun x y => g x = y) xs (map f xs) ->
  forall x, In x xs -> g x = f x.
Proof.
  induction xs as [|a xs IH]; intros H x Hin; [contradiction|].
  cbn [map] in H. inversion H; subst.
  destruct Hin as [<- | Hin]; [assumption | apply IH; assumption].
Qed.

(** A least-squares solution of the design system of samples of a
    polynomial [p] agrees with [p] at every abscissa. *)
Lemma least_squares_on_samples (xs p c : list R) (k : nat) :
  length p = S k ->
  least_squares (S k) (design_matrix xs k) (map (polyeval p) xs) c ->
  forall x, In x xs -> polyeval c x = polyeval p x.
Proof.
  intros Hp [Hc Hmin].
  assert (Hexact : Forall2 (fun row bi => dot row p = bi)
                     (design_matrix xs k) (map (polyeval p) xs)).
  { unfold design_matrix.
    apply (Forall2_map_rows (design_row k) (fun row bi => dot row p = bi)).
    clear Hmin. induction xs as [|a xs IH]; cbn [map].
    - constructor.
    - constructor; [apply dot_design_row; exact Hp | exact IH]. }
  pose proof (Hmin p Hp) as Hle.
  rewrite (residual_exact _ _ _ Hexact) in Hle.
  apply residual_zero_exact in Hle;
    [|unfold design_matrix; rewrite !length_map; reflexivity].
  unfold design_matrix in Hle.
  apply (Forall2_map_rows (design_row k) (fun row bi => dot row c = bi)) in Hle.
  apply Forall2_map_values.
  apply Forall2_impl with (2 := Hle).
  intros x y Hxy. rewrite <- (dot_design_row k x c Hc). exact Hxy.
Qed.



(** X12: a tick on waypoints that lie on a cubic. When the six car-frame
    points that reach the fit lie on the graph of a polynomial with four
    coefficients, at least four of their abscissas are distinct and the QR
    solve returns a least-squares solution, then the tick's coefficients are
    those of that polynomial, the cross-track error is its constant term,
    the heading error is minus the arctangent of its linear coefficient, and
    the reference line is sampled on it. *)
Theorem tick_on_polynomial_path qr mpc (j : telemetry) (out : tick)
    (p : list R) :
  onTelemetry qr mpc j = Done out ->
  length p = 4%nat ->
  ptsy_transform out = map (polyeval p) (ptsx_transform out) ->
  (exists ds, NoDup ds /\ incl ds (ptsx_transform out) /\ length ds = 4%nat) ->
  least_squares 4 (design_matrix (ptsx_transform out) 3) (ptsy_transform out)
    (qr (design_matrix (ptsx_transform out) 3) (ptsy_transform out)) ->
  coeffs out = p /\
  cte out = nth 0 p 0 /\
  epsi out = - atan (nth 1 p 0) /\
  next_y (msg out) = map (fun i => polyeval p (2.5 * INR i)) (seq 1 24).
Proof.
  intros H Hp Hys (ds & Hnd & Hincl & Hds) Hls.
  apply onTelemetry_Done in H. cbv zeta in H.
  destruct H as (ptsx & ptsy & xt & yt & c & c1 & vars0 & vars1 & H).
  destruct H as (_ & Hx & Hy & Hfit & Hc1 & _ & _ & ->).
  cbn [ptsx_transform ptsy_transform coeffs cte epsi msg next_y] in *.
  apply eigen_map_Done in Hx, Hy.
  destruct Hx as [Lx Ex], Hy as [Ly Ey].
  rewrite polyfit_six in Hfit by (subst xt yt; rewrite length_firstn; lia).
  injection Hfit as Hc.
  assert (Ec : c = p).
  { apply (coefficients_unique c p ds).
    - destruct Hls as [Hlen _]. rewrite <- Hc, Hlen, Hp. reflexivity.
    - exact Hnd.
    - lia.
    - intros x Hin. rewrite <- Hc.
      rewrite Hys in Hls |- *.
      apply (least_squares_on_samples xt p _ 3 Hp Hls).
      apply Hincl. exact Hin. }
  rewrite Ec in *. apply vec_get_nth in Hc1.
  rewrite polyeval_at_zero, Hc1, next_vals_map.
  repeat split; reflexivity.
Qed.

Lemma sample_car_frame (a : R) :
  car_x (predict latency Lf 0 0 (measured j_six)) (a, 0) = a - 1 /\
  car_y (predict latency Lf 0 0 (measured j_six)) (a, 0) = 0.
Proof.
  unfold car_x, car_y, predict, measured, latency, Lf.
  cbn [fst snd px py psi v j_six j_x j_y j_psi j_speed].
  replace (0 - (0 - 10 * 0 / 2.67 * 0.1)) with 0 by lra.
  rewrite cos_0, sin_0. split; lra.
Qed.

Lemma tick_on_polynomial_path_witness :
  exists out,
    onTelemetry qr_zero mpc_at_bound j_six = Done out /\
    coeffs out = [0; 0; 0; 0] /\ cte out = 0 /\ epsi out = - atan 0.
Proof.
  exists (proj1_sig onTelemetry_j_six).
  split; [exact (proj2_sig onTelemetry_j_six)|].
  destruct (onTelemetry_fit_inputs _ _ _ _ (proj2_sig onTelemetry_j_six))
    as (_ & _ & _ & Hxt & Hyt).
  cbn [j_six j_ptsx j_ptsy j_steering_angle j_throttle combine map firstn]
    in Hxt, Hyt.
  change (measured
            {| j_ptsx := [1; 2; 3; 4; 5; 6]; j_ptsy := [0; 0; 0; 0; 0; 0];
               j_x := 0; j_y := 0; j_psi := 0; j_speed := 10;
               j_steering_angle := 0; j_throttle := 0 |})
    with (measured j_six) in Hxt, Hyt.
  rewrite !(proj1 (sample_car_frame _)) in Hxt.
  rewrite !(proj2 (sample_car_frame _)) in Hyt.
  assert (Hzero : forall x, polyeval [0; 0; 0; 0] x = 0)
    by (intros x; rewrite polyeval_horner; simpl; ring).
  destruct (tick_on_polynomial_path qr_zero mpc_at_bound j_six
              (proj1_sig onTelemetry_j_six) [0; 0; 0; 0]
              (proj2_sig onTelemetry_j_six) eq_refl)
    as (Hc & Hcte & Hepsi & _).
  - rewrite Hxt, Hyt. cbn [map]. rewrite !Hzero. reflexivity.
  - exists [1 - 1; 2 - 1; 3 - 1; 4 - 1]. rewrite Hxt. split; [|split].
    + repeat constructor; simpl; intros H; decompose [or] H; lra.
    + intros a Ha. simpl in Ha. simpl. tauto.
    + reflexivity.
  - split; [reflexivity|]. intros c' _.
    rewrite (residual_exact _ _ [0; 0; 0; 0]); [apply residual_nonneg|].
    rewrite Hxt, Hyt. unfold design_matrix. cbn [map].
    repeat constructor; unfold design_row; simpl; ring.
  - split; [exact Hc|]. split; [exact Hcte | exact Hepsi].
Defined.

(** *** The string searches of [hasData] *)

Notation "'kw_null'" := (["n"; "u"; "l"; "l"]%char) (only parsing).
Notation "'kw_open'" := (["["]%char) (only parsing).
Notation "'kw_close'" := (["}"; "]"]%char) (only parsing).

Lemma starts_with_spec (pat s : text) :
  starts_with pat s = true <-> firstn (length pat) s = pat.
Proof.
  revert s. induction pat as [|a pat IH]; intros s.
  - simpl. split; reflexivity.
  - destruct s as [|b s]; cbn [starts_with length firstn].
    + split; discriminate.
    + rewrite andb_true_iff, Ascii.eqb_eq, IH. split.
      * intros [-> ->]. reflexivity.
      * intros H. injection H as -> H. split; [reflexivity | exact H].
Qed.

Lemma occurs_at_nil (pat : text) (k : nat) :
  pat <> [] -> ~ occurs_at pat [] k.
Proof.
  unfold occurs_at. intros Hne H. rewrite skipn_nil, firstn_nil in H.
  apply Hne. symmetry. exact H.
Qed.

Lemma find_None (pat s : text) :
  find pat s = None -> forall k, ~ occurs_at pat s k.
Proof.
  induction s as [|c s IH]; cbn [find].
  - destruct (starts_with pat []) eqn:E; [discriminate|].
    intros _ k. apply occurs_at_nil. intros ->. discriminate.
  - destruct (starts_with pat (c :: s)) eqn:E; [discriminate|].
    destruct (find pat s) eqn:F; [discriminate|]. intros _ [|k].
    + unfold occurs_at. cbn [skipn]. intros H.
      apply starts_with_spec in H. congruence.
    + unfold occurs_at. cbn [skipn]. apply (IH eq_refl k).
Qed.

Lemma find_Some (pat s : text) (k : nat) :
  find pat s = Some k -> occurs_at pat s k.
Proof.
  revert k. induction s as [|c s IH]; intros k; cbn [find].
  - destruct (starts_with pat []) eqn:E; [|discriminate].
    intros H. injection H as <-. apply starts_with_spec. exact E.
  - destruct (starts_with pat (c :: s)) eqn:E.
    + intros H. injection H as <-. apply starts_with_spec. exact E.
    + destruct (find pat s) as [m|]; [|discriminate].
      cbn [option_map]. intros H. injection H as <-.
      unfold occurs_at. cbn [skipn]. apply IH. reflexivity.
Qed.

Lemma find_absent (pat s : text) :
  (forall k, ~ occurs_at pat s k) -> find pat s = None.
Proof.
  intros H. destruct (find pat s) as [k|] eqn:E; [|reflexivity].
  exfalso. apply (H k). apply find_Some. exact E.
Qed.

Lemma find_present (pat pre post : text) :
  exists m, find pat (pre ++ pat ++ post) = Some m.
Proof.
  induction pre as [|c pre [m IH]].
  - assert (E : starts_with pat (pat ++ post) = true).
    { apply starts_with_spec.
      rewrite firstn_app, Nat.sub_diag, firstn_all, firstn_O, app_nil_r.
      reflexivity. }
    cbn [app]. destruct (pat ++ post) as [|b t]; cbn [find]; rewrite E;
      exists O; reflexivity.
  - cbn [app find].
    destruct (starts_with pat (c :: pre ++ pat ++ post));
      [exists O | rewrite IH; exists (S m)]; reflexivity.
Qed.

Lemma find_first_of_open (pre rest : text) :
  ~ In "["%char pre ->
  find_first_of kw_open (pre ++ "["%char :: rest) = Some (length pre).
Proof.
  induction pre as [|c pre IH]; intros Hnin.
  - reflexivity.
  - cbn [app find_first_of existsb length].
    destruct (Ascii.eqb_spec c "["%char) as [->|Hne].
    + exfalso. apply Hnin. left. reflexivity.
    + cbn [orb]. rewrite IH by (intros Hin; apply Hnin; right; exact Hin).
      reflexivity.
Qed.

Lemma find_first_of_Some (s : text) (k : nat) :
  find_first_of kw_open s = Some k ->
  exists rest, skipn k s = "["%char :: rest.
Proof.
  revert k. induction s as [|c s IH]; intros k; cbn [find_first_of existsb];
    [discriminate|].
  destruct (Ascii.eqb_spec c "["%char) as [->|Hne]; cbn [orb].
  - intros H. injection H as <-. exists s. reflexivity.
  - destruct (find_first_of kw_open s) as [m|]; [|discriminate].
    cbn [option_map]. intros H. injection H as <-.
    cbn [skipn]. apply IH. reflexivity.
Qed.

Lemma rfind_app (pat a u : text) (m : nat) :
  rfind pat u = Some m -> rfind pat (a ++ u) = Some (length a + m)%nat.
Proof.
  intros H. induction a as [|c a IH]; [exact H|].
  cbn [app rfind length]. rewrite IH. reflexivity.
Qed.

Lemma rfind_close_end (body : text) :
  rfind kw_close (body ++ kw_close) = Some (length body).
Proof.
  rewrite (rfind_app kw_close body kw_close O);
    [f_equal; lia | reflexivity].
Qed.

Lemma size_t_small (z : Z) : (0 <= z < 2 ^ 64)%Z -> size_t z = z.
Proof. intros H. unfold size_t. apply Z.mod_small. exact H. Qed.

Lemma substr_rest (s : text) (b : nat) (count : Z) :
  (Z.of_nat (length s) - Z.of_nat b <= count)%Z ->
  substr s (Z.of_nat b) count = skipn b s.
Proof.
  intros Hc. unfold substr. rewrite Z.min_r by exact Hc.
  rewrite Nat2Z.id. apply firstn_all2. rewrite length_skipn. lia.
Qed.

(** X13: a frame that holds the word null anywhere has no data: [hasData]
    returns the empty string, whatever brackets the frame has. *)
Theorem hasData_null (pre post : text) :
  hasData (pre ++ kw_null ++ post) = [].
Proof.
  unfold hasData.
  destruct (find_present kw_null pre post) as [m E]. rewrite E. reflexivity.
Qed.

(** X14: the socket.io frame. On a string without the word null that
    consists of a prefix free of '[', then '[', any text, and a closing
    "}]" at the very end, [hasData] returns everything from that first '['
    to the end. *)
Theorem hasData_frame (pre rest : text) :
  ~ In "["%char pre ->
  (forall k, ~ occurs_at kw_null (pre ++ "["%char :: rest ++ kw_close) k) ->
  (Z.of_nat (length (pre ++ "["%char :: rest ++ kw_close)) < 2 ^ 64)%Z ->
  hasData (pre ++ "["%char :: rest ++ kw_close) = "["%char :: rest ++ kw_close.
Proof.
  intros Hpre Hnull Hsize. unfold hasData.
  rewrite (find_absent _ _ Hnull), (find_first_of_open pre _ Hpre).
  assert (Hr : rfind kw_close (pre ++ "["%char :: rest ++ kw_close) =
               Some (length pre + 1 + length rest)%nat).
  { replace (pre ++ "["%char :: rest ++ kw_close)
      with ((pre ++ "["%char :: rest) ++ kw_close)
      by (rewrite <- app_assoc; reflexivity).
    rewrite rfind_close_end. f_equal. rewrite length_app. simpl. lia. }
  rewrite Hr.
  assert (Hlen : length (pre ++ "["%char :: rest ++ kw_close) =
                 (length pre + 1 + length rest + 2)%nat).
  { rewrite length_app. cbn [length]. rewrite length_app. simpl. lia. }
  rewrite Hlen in Hsize.
  rewrite size_t_small by lia.
  rewrite substr_rest by (rewrite Hlen; lia).
  rewrite skipn_app, Nat.sub_diag, skipn_all. reflexivity.
Qed.

Lemma hasData_frame_witness : hasData frame_event = skipn 2 frame_event.
Proof.
  apply (hasData_frame ["4"; "2"]%char ["a"; ","; "{"]%char).
  - simpl. intros [H|[H|[]]]; discriminate.
  - apply find_None. reflexivity.
  - simpl. lia.
Defined.

Lemma occurs_at_infix (pat pre mid post : text) (k : nat) :
  pat <> [] -> occurs_at pat mid k ->
  occurs_at pat (pre ++ mid ++ post) (length pre + k).
Proof.
  unfold occurs_at. intros Hne H.
  assert (Hlen : (length pat <= length (skipn k mid))%nat).
  { rewrite <- H at 1. rewrite length_firstn. lia. }
  assert (Hpos : (0 < length pat)%nat)
    by (destruct pat; [contradiction | simpl; lia]).
  rewrite length_skipn in Hlen.
  rewrite skipn_app, skipn_all2 by lia.
  replace (length pre + k - length pre)%nat with k by lia.
  cbn [app]. rewrite skipn_app.
  replace (k - length mid)%nat with 0%nat by lia. cbn [skipn].
  rewrite firstn_app, H, length_skipn.
  replace (length pat - (length mid - k))%nat with 0%nat by lia.
  rewrite firstn_O, app_nil_r. reflexivity.
Qed.

Lemma hasData_cases (s : text) :
  hasData s = [] \/
  exists b1 b2 n,
    find kw_null s = None /\
    find_first_of kw_open s = Some b1 /\
    rfind kw_close s = Some b2 /\
    hasData s = firstn n (skipn b1 s).
Proof.
  unfold hasData.
  destruct (find kw_null s) as [m|]; [left; reflexivity|].
  destruct (find_first_of kw_open s) as [b1|]; [|left; reflexivity].
  destruct (rfind kw_close s) as [b2|]; [|left; reflexivity].
  right. exists b1, b2. eexists. repeat split.
  unfold substr. rewrite Nat2Z.id. reflexivity.
Qed.

(** X15: what [hasData] returns is one contiguous piece of its argument; it
    is empty or begins with '['; and the word null never occurs in it. *)
Theorem hasData_result (s : text) :
  (hasData s = [] \/ exists t, hasData s = "["%char :: t) /\
  (exists pre post, s = pre ++ hasData s ++ post) /\
  (forall k, ~ occurs_at kw_null (hasData s) k).
Proof.
  destruct (hasData_cases s) as [E|(b1 & b2 & n & Hnull & Hb1 & _ & E)];
    rewrite E.
  - split; [left; reflexivity|]. split.
    + exists [], s. reflexivity.
    + intros k. apply occurs_at_nil. discriminate.
  - destruct (find_first_of_Some s b1 Hb1) as [rest Hrest].
    assert (Hinfix : s = firstn b1 s ++ firstn n (skipn b1 s)
                           ++ skipn n (skipn b1 s))
      by (rewrite !firstn_skipn; reflexivity).
    split; [|split].
    + rewrite Hrest. destruct n as [|n]; [left; reflexivity|].
      right. exists (firstn n rest). reflexivity.
    + exists (firstn b1 s), (skipn n (skipn b1 s)). exact Hinfix.
    + intros k Hocc.
      apply (occurs_at_infix _ (firstn b1 s) _ (skipn n (skipn b1 s)))
        in Hocc; [|discriminate].
      rewrite <- Hinfix in Hocc.
      exact (find_None _ _ Hnull _ Hocc).
Qed.

Lemma size_t_negative (z : Z) :
  (- 2 ^ 64 <= z < 0)%Z -> size_t z = (z + 2 ^ 64)%Z.
Proof.
  intros H. unfold size_t. symmetry.
  apply (Z.mod_unique z (2 ^ 64) (-1) (z + 2 ^ 64)); lia.
Qed.

Lemma rfind_None (pat s : text) :
  rfind pat s = None -> forall k, ~ occurs_at pat s k.
Proof.
  induction s as [|c s IH]; cbn [rfind].
  - destruct (starts_with pat []) eqn:E; [discriminate|].
    intros _ k. apply occurs_at_nil. intros ->. discriminate.
  - destruct (rfind pat s) as [m|]; [discriminate|].
    destruct (starts_with pat (c :: s)) eqn:E; [discriminate|].
    intros _ [|k]; unfold occurs_at; cbn [skipn].
    + intros H. apply starts_with_spec in H. congruence.
    + apply (IH eq_refl k).
Qed.

Lemma rfind_Some (pat s : text) (k : nat) :
  pat <> [] -> rfind pat s = Some k ->
  occurs_at pat s k /\ forall k', (k < k')%nat -> ~ occurs_at pat s k'.
Proof.
  intros Hne. revert k. induction s as [|c s IH]; intros k; cbn [rfind].
  - destruct pat; [contradiction | discriminate].
  - destruct (rfind pat s) as [m|] eqn:E.
    + intros H. injection H as <-. destruct (IH m eq_refl) as [Hocc Hlast].
      split; [exact Hocc|].
      intros [|k'] Hk; [lia|]. unfold occurs_at. cbn [skipn].
      apply Hlast. lia.
    + destruct (starts_with pat (c :: s)) eqn:Es; [|discriminate].
      intros H. injection H as <-. split.
      * apply starts_with_spec. exact Es.
      * intros [|k'] Hk; [lia|]. unfold occurs_at. cbn [skipn].
        apply (rfind_None pat s E).
Qed.

Lemma rfind_last (pat s : text) (k : nat) :
  pat <> [] -> occurs_at pat s k ->
  (forall k', (k < k')%nat -> ~ occurs_at pat s k') ->
  rfind pat s = Some k.
Proof.
  intros Hne Hocc Hlast.
  destruct (rfind pat s) as [m|] eqn:E.
  - destruct (rfind_Some pat s m Hne E) as [Hm Hafter].
    f_equal. destruct (Nat.lt_trichotomy m k) as [Hlt|[Heq|Hgt]].
    + exfalso. exact (Hafter k Hlt Hocc).
    + exact Heq.
    + exfalso. exact (Hlast m Hgt Hm).
  - exfalso. exact (rfind_None pat s E k Hocc).
Qed.

(** X16: a closing "}]" that comes before the first '['. When the last "}]"
    of a frame without the word null stands before its first '[', the
    unsigned length [b2 - b1 + 2] wraps around: [hasData] returns the empty
    string when the '[' follows the "}]" directly, and otherwise everything
    from the '[' to the end of the frame, which then does not end in "}]".
    Here the frame is [a], the last "}]", [m], the first '[' and [t]. *)
Theorem hasData_close_before_open (a m t : text) :
  ~ In "["%char a -> ~ In "["%char m ->
  (forall k, (length a < k)%nat ->
     ~ occurs_at kw_close (a ++ kw_close ++ m ++ "["%char :: t) k) ->
  (forall k, ~ occurs_at kw_null (a ++ kw_close ++ m ++ "["%char :: t) k) ->
  (Z.of_nat (length (a ++ kw_close ++ m ++ "["%char :: t)) < 2 ^ 64)%Z ->
  hasData (a ++ kw_close ++ m ++ "["%char :: t) =
  match m with
  | [] => []
  | _ => "["%char :: t
  end.
Proof.
  intros Ha Hm Hlast Hnull Hsize.
  set (s := a ++ kw_close ++ m ++ "["%char :: t) in *.
  assert (Hlen : length s = (length a + 2 + length m + 1 + length t)%nat).
  { unfold s. repeat (rewrite length_app || cbn [length]). lia. }
  assert (Hb1 : find_first_of kw_open s = Some (length a + 2 + length m)%nat).
  { replace s with ((a ++ kw_close ++ m) ++ "["%char :: t)
      by (unfold s; rewrite <- !app_assoc; reflexivity).
    rewrite find_first_of_open.
    - f_equal. rewrite !length_app. simpl. lia.
    - intros Hin. apply in_app_or in Hin. destruct Hin as [Hin|Hin]; [auto|].
      simpl in Hin. destruct Hin as [Hin|[Hin|Hin]];
        [discriminate | discriminate | auto]. }
  assert (Hb2 : rfind kw_close s = Some (length a)).
  { apply rfind_last; [discriminate | | exact Hlast].
    unfold occurs_at, s.
    rewrite skipn_app, skipn_all, Nat.sub_diag. reflexivity. }
  assert (Hskip : skipn (length a + 2 + length m) s = "["%char :: t).
  { replace s with ((a ++ kw_close ++ m) ++ "["%char :: t)
      by (unfold s; rewrite <- !app_assoc; reflexivity).
    rewrite skipn_app, skipn_all2 by (rewrite !length_app; simpl; lia).
    replace (length a + 2 + length m - length (a ++ kw_close ++ m))%nat
      with 0%nat by (rewrite !length_app; simpl; lia).
    reflexivity. }
  unfold hasData.
  rewrite (find_absent _ _ Hnull), Hb1, Hb2.
  destruct m as [|c m].
  - cbn [length] in *.
    replace (Z.of_nat (length a) - Z.of_nat (length a + 2 + 0) + 2)%Z
      with 0%Z by lia.
    change (size_t 0) with 0%Z.
    unfold substr. rewrite Z.min_l by (rewrite Hlen; lia).
    reflexivity.
  - cbn [length] in *. rewrite Hlen in Hsize.
    rewrite size_t_negative by lia.
    rewrite substr_rest by (rewrite Hlen; lia).
    exact Hskip.
Qed.

Lemma hasData_close_before_open_witness :
  hasData frame_reversed = ["["; "c"; "}"; "d"]%char.
Proof.
  apply (hasData_close_before_open ["4"; "2"]%char ["a"]%char
           ["c"; "}"; "d"]%char).
  - simpl. intros [H|[H|[]]]; discriminate.
  - simpl. intros [H|[]]; discriminate.
  - intros k Hk.
    apply (proj2 (rfind_Some kw_close frame_reversed 2
                    ltac:(discriminate) eq_refl) k Hk).
  - apply find_None. reflexivity.
  - simpl. lia.
Defined.

(** *** The branches of the message handler *)

Lemma substr_from_start (s : text) (n : nat) :
  substr s 0 (Z.of_nat n) = firstn n s.
Proof.
  unfold substr. cbn [Z.to_nat skipn]. rewrite Z.sub_0_r.
  destruct (Z.min_spec (Z.of_nat n) (Z.of_nat (length s))) as [[Hlt ->]|[Hle ->]].
  - rewrite Nat2Z.id. reflexivity.
  - rewrite Nat2Z.id, firstn_all. symmetry. apply firstn_all2. lia.
Qed.

Lemma until_nul_clean (data : text) : ~ In Ascii.zero (until_nul data).
Proof.
  induction data as [|c data IH]; cbn [until_nul]; [intros []|].
  destruct (Ascii.eqb_spec c Ascii.zero) as [->|Hne]; [intros []|].
  intros [Hc|Hin]; [exact (Hne Hc) | exact (IH Hin)].
Qed.

Lemma until_nul_prefix (data : text) :
  exists rest, data = until_nul data ++ rest.
Proof.
  induction data as [|c data [rest IH]]; cbn [until_nul].
  - exists []. reflexivity.
  - destruct (Ascii.eqb c Ascii.zero).
    + exists (c :: data). reflexivity.
    + exists rest. cbn [app]. rewrite <- IH. reflexivity.
Qed.

Lemma until_nul_app (l r : text) :
  ~ In Ascii.zero l -> until_nul (l ++ r) = l ++ until_nul r.
Proof.
  induction l as [|c l IH]; intros Hnin; [reflexivity|].
  cbn [app until_nul].
  destruct (Ascii.eqb_spec c Ascii.zero) as [->|Hne].
  - exfalso. apply Hnin. left. reflexivity.
  - rewrite IH by (intros Hin; apply Hnin; right; exact Hin). reflexivity.
Qed.

(** X17: the handler parses a payload only when [sdata], the frame's text
    up to its first NUL byte and at most [length] characters long, has more
    than two characters, begins with 42 and holds no null; the payload is
    what [hasData] returns for [sdata], and it begins with '['. *)
Theorem onMessage_parse (data : text) (length : nat) (p : text) :
  onMessage data length = Parse p ->
  let sdata := firstn length (until_nul data) in
  (exists c tl, sdata = "4"%char :: "2"%char :: c :: tl) /\
  p = hasData sdata /\
  (exists t, p = "["%char :: t) /\
  (forall k, ~ occurs_at kw_null sdata k) /\
  ~ In Ascii.zero sdata /\
  (exists rest, data = sdata ++ rest).
Proof.
  intros H. cbv zeta. unfold onMessage in H.
  rewrite substr_from_start in H.
  set (sdata := firstn length (until_nul data)) in *.
  assert (Hclean : ~ In Ascii.zero sdata).
  { intros Hin. apply (until_nul_clean data).
    unfold sdata in Hin. rewrite <- (firstn_skipn length (until_nul data)).
    apply in_or_app. left. exact Hin. }
  assert (Hprefix : exists rest, data = sdata ++ rest).
  { destruct (until_nul_prefix data) as [rest Hrest].
    exists (skipn length (until_nul data) ++ rest).
    unfold sdata. rewrite app_assoc, firstn_skipn. exact Hrest. }
  destruct sdata as [|c0 [|c1 [|c2 tl]]]; try discriminate.
  cbn [List.length Nat.ltb Nat.leb nth andb] in H.
  destruct (Ascii.eqb_spec c0 "4"%char) as [->|]; [|discriminate].
  destruct (Ascii.eqb_spec c1 "2"%char) as [->|]; [|discriminate].
  cbn [andb] in H.
  set (s := ("4" :: "2" :: c2 :: tl)%char) in *.
  destruct (hasData s) as [|h q] eqn:E; [discriminate|].
  injection H as <-.
  split; [exists c2, tl; reflexivity|]. split; [reflexivity|].
  destruct (hasData_cases s) as [E0|(b1 & b2 & n & Hnull & Hb1 & _ & En)];
    [congruence|].
  split; [|split; [apply find_None; exact Hnull | split; assumption]].
  destruct (find_first_of_Some s b1 Hb1) as [rest Hrest].
  rewrite E, Hrest in En. destruct n as [|n]; [discriminate|].
  injection En as -> ->. eexists. reflexivity.
Qed.

Lemma onMessage_parse_witness :
  onMessage frame_nul 13 = Parse (skipn 2 frame_event) /\
  skipn 2 frame_event = hasData (firstn 13 (until_nul frame_nul)) /\
  firstn 13 (until_nul frame_nul) = frame_event.
Proof.
  destruct (onMessage_parse frame_nul 13 (skipn 2 frame_event) eq_refl)
    as (_ & Hp & _).
  split; [reflexivity|]. split; [exact Hp | reflexivity].
Defined.

(** X18: frames that get no reply. A frame of at most two characters is
    ignored, also the bare 42, and so is every frame whose first two bytes
    are not 42, whatever the length passed with it. *)
Theorem onMessage_unparsed :
  (forall data, onMessage data 0 = Ignored /\ onMessage data 1 = Ignored /\
                onMessage data 2 = Ignored) /\
  (forall length, onMessage [] length = Ignored) /\
  (forall a length, onMessage [a] length = Ignored) /\
  (forall a b length, onMessage [a; b] length = Ignored) /\
  (forall a b tl length,
     onMessage (a :: b :: tl) length = Ignored \/
     (a = "4"%char /\ b = "2"%char)).
Proof.
  assert (Hshort : forall data length,
             (List.length (firstn length (until_nul data)) <= 2)%nat ->
             onMessage data length = Ignored).
  { intros data length Hle. unfold onMessage. rewrite substr_from_start.
    destruct (Nat.ltb_spec 2 (List.length (firstn length (until_nul data))));
      [lia | reflexivity]. }
  assert (Hnul : forall data, (List.length (until_nul data) <= List.length data)%nat).
  { induction data as [|c data IH]; cbn [until_nul]; [lia|].
    destruct (Ascii.eqb c Ascii.zero); cbn [List.length]; lia. }
  split; [|split; [|split; [|split]]].
  - intros data. repeat split; apply Hshort; rewrite length_firstn; lia.
  - intros length. apply Hshort. rewrite length_firstn. cbn. lia.
  - intros a length. apply Hshort. rewrite length_firstn.
    pose proof (Hnul [a]). cbn [List.length] in *. lia.
  - intros a b length. apply Hshort. rewrite length_firstn.
    pose proof (Hnul [a; b]). cbn [List.length] in *. lia.
  - intros a b tl length. unfold onMessage. rewrite substr_from_start.
    cbn [until_nul].
    destruct (Ascii.eqb_spec a Ascii.zero) as [->|Ha].
    { left. rewrite firstn_nil. reflexivity. }
    destruct (Ascii.eqb_spec b Ascii.zero) as [->|Hb].
    { left. destruct length as [|[|n]]; reflexivity. }
    destruct length as [|[|n]]; [left; reflexivity | left; reflexivity|].
    cbn [firstn nth].
    destruct (Ascii.eqb_spec a "4"%char) as [->|];
      [|left; rewrite andb_false_r; reflexivity].
    destruct (Ascii.eqb_spec b "2"%char) as [->|];
      [right; split; reflexivity | left; rewrite andb_false_r; reflexivity].
Qed.

(** X21: a frame that begins with 42 and holds the word null before any NUL
    byte and within its first [length] characters is answered with the
    manual-driving reply. *)
Theorem onMessage_null_manual (pre post : text) (length : nat) :
  ~ In Ascii.zero pre ->
  (List.length pre + 6 <= length)%nat ->
  onMessage ("4"%char :: "2"%char :: pre ++ kw_null ++ post) length
  = ManualDriving.
Proof.
  intros Hpre Hlen. unfold onMessage. rewrite substr_from_start.
  assert (Hclean : ~ In Ascii.zero (("4"%char :: "2"%char :: pre) ++ kw_null)).
  { intros Hin. apply in_app_or in Hin. destruct Hin as [Hin|Hin].
    - destruct Hin as [H|[H|Hin]]; [discriminate | discriminate | auto].
    - simpl in Hin. decompose [or] Hin; try discriminate; contradiction. }
  replace ("4"%char :: "2"%char :: pre ++ kw_null ++ post)
    with ((("4"%char :: "2"%char :: pre) ++ kw_null) ++ post)
    by (rewrite <- app_assoc; reflexivity).
  rewrite (until_nul_app _ post Hclean).
  rewrite firstn_app, firstn_all2
    by (rewrite length_app; cbn [List.length]; lia).
  rewrite <- app_assoc.
  set (tail := firstn _ (until_nul post)).
  set (sd := ("4"%char :: "2"%char :: pre) ++ kw_null ++ tail).
  assert (Hsize : (2 <? List.length sd)%nat = true).
  { apply Nat.ltb_lt. unfold sd. rewrite !length_app. cbn [List.length]. lia. }
  rewrite Hsize.
  change (nth 0 sd Ascii.zero) with "4"%char.
  change (nth 1 sd Ascii.zero) with "2"%char.
  change (Ascii.eqb "4" "4") with true. change (Ascii.eqb "2" "2") with true.
  cbn [andb].
  assert (E : hasData sd = []).
  { unfold hasData.
    destruct (find_present kw_null ("4"%char :: "2"%char :: pre) tail)
      as [m Em].
    fold sd in Em. rewrite Em. reflexivity. }
  rewrite E. reflexivity.
Qed.

Lemma onMessage_null_manual_witness :
  onMessage frame_null 9 = ManualDriving.
Proof.
  apply (onMessage_null_manual ["["]%char ["}"; "]"]%char 9).
  - simpl. intros [H|[]]. discriminate.
  - simpl. lia.
Defined.

(** *** Turning the map frame *)

Lemma car_rotate (theta : R) (s s' : vehicle) (x y : R) :
  px s' = px s * cos theta - py s * sin theta ->
  py s' = px s * sin theta + py s * cos theta ->
  psi s' = psi s + theta ->
  car_x s' (x * cos theta - y * sin theta, x * sin theta + y * cos theta) =
    car_x s (x, y) /\
  car_y s' (x * cos theta - y * sin theta, x * sin theta + y * cos theta) =
    car_y s (x, y).
Proof.
  intros Hpx Hpy Hpsi. unfold car_x, car_y. cbn [fst snd].
  rewrite Hpx, Hpy, Hpsi.
  replace (0 - (psi s + theta)) with (- (psi s + theta)) by ring.
  replace (0 - psi s) with (- psi s) by ring.
  rewrite !cos_neg, !sin_neg, cos_plus, sin_plus.
  pose proof (sin2_cos2 theta) as Hsc. unfold Rsqr in Hsc.
  set (a := x - px s). set (b := y - py s).
  split.
  - transitivity ((a * cos (psi s) + b * sin (psi s)) *
                  (sin theta * sin theta + cos theta * cos theta));
      [unfold a, b; ring | rewrite Hsc; ring].
  - transitivity ((b * cos (psi s) - a * sin (psi s)) *
                  (sin theta * sin theta + cos theta * cos theta));
      [unfold a, b; ring | rewrite Hsc; ring].
Qed.

Lemma combine_map_pair {A : Type} (f g : A -> R) (l : list A) :
  combine (map f l) (map g l) = map (fun p => (f p, g p)) l.
Proof.
  induction l as [|a l IH]; [reflexivity|]. cbn [map combine].
  rewrite IH. reflexivity.
Qed.

(** X19: the command does not depend on the orientation of the map frame.
    Whenever a tick completes, the tick on the event with the vehicle
    position and every waypoint rotated by theta about the map origin, and
    the heading increased by theta, completes too, with the same
    coefficients, state, solver output and message. *)
Theorem command_rotation_invariant qr mpc (theta : R) (j : telemetry)
    (out : tick) :
  onTelemetry qr mpc j = Done out ->
  exists out',
    onTelemetry qr mpc (rotate theta j) = Done out' /\
    msg out' = msg out /\ coeffs out' = coeffs out /\
    state out' = state out /\ vars out' = vars out.
Proof.
  intros H.
  destruct (onTelemetry_fit_inputs qr mpc j out H)
    as (H6 & Hle & Hs & Hxt & Hyt).
  set (s := predict latency Lf (j_steering_angle j) (j_throttle j) (measured j))
    in *.
  set (s' := predict latency Lf (j_steering_angle (rotate theta j))
               (j_throttle (rotate theta j)) (measured (rotate theta j))).
  set (l := combine (j_ptsx j) (j_ptsy j)) in *.
  assert (Ll : length l = length (j_ptsx j))
    by (unfold l; rewrite length_combine; lia).
  assert (Hpx : px s' = px s * cos theta - py s * sin theta)
    by (unfold s, s'; cbn; rewrite cos_plus; ring).
  assert (Hpy : py s' = px s * sin theta + py s * cos theta)
    by (unfold s, s'; cbn; rewrite sin_plus; ring).
  assert (Hpsi : psi s' = psi s + theta) by (unfold s, s'; cbn; ring).
  assert (Ecx : map (car_x s') (combine (j_ptsx (rotate theta j))
                                        (j_ptsy (rotate theta j)))
                = map (car_x s) l).
  { cbn [rotate j_ptsx j_ptsy]. fold l.
    rewrite combine_map_pair, map_map. apply map_ext. intros [x y].
    cbn [fst snd]. apply (car_rotate theta s s' x y Hpx Hpy Hpsi). }
  assert (Ecy : map (car_y s') (combine (j_ptsx (rotate theta j))
                                        (j_ptsy (rotate theta j)))
                = map (car_y s) l).
  { cbn [rotate j_ptsx j_ptsy]. fold l.
    rewrite combine_map_pair, map_map. apply map_ext. intros [x y].
    cbn [fst snd]. apply (car_rotate theta s s' x y Hpx Hpy Hpsi). }
  apply (onTelemetry_same_fit qr mpc j (rotate theta j) out
           (map (car_x s) l)
           (map (car_y s) l
            ++ skipn (length (j_ptsx (rotate theta j)))
                 (j_ptsy (rotate theta j))) H).
  - rewrite Hs. reflexivity.
  - fold s'. rewrite transform_cases, Ecx, Ecy.
    cbn [rotate j_ptsx j_ptsy]. fold l. rewrite !length_map.
    rewrite Nat.leb_refl. reflexivity.
  - apply eigen_map_Done. rewrite length_map.
    split; [lia | exact Hxt].
  - apply eigen_map_Done. rewrite length_app, length_map.
    split; [lia|].
    rewrite firstn_app, length_map.
    replace (6 - length l)%nat with 0%nat by lia.
    rewrite firstn_O, app_nil_r. exact Hyt.
Qed.

Lemma command_rotation_invariant_witness :
  exists out out',
    onTelemetry qr_zero mpc_at_bound j_six = Done out /\
    onTelemetry qr_zero mpc_at_bound (rotate (PI / 2) j_six) = Done out' /\
    msg out' = msg out.
Proof.
  destruct (command_rotation_invariant qr_zero mpc_at_bound (PI / 2) j_six
              (proj1_sig onTelemetry_j_six) (proj2_sig onTelemetry_j_six))
    as (out' & Hrun & Hmsg & _).
  exists (proj1_sig onTelemetry_j_six), out'.
  split; [exact (proj2_sig onTelemetry_j_six)|].
  split; [exact Hrun | exact Hmsg].
Defined.

(** *** The range of the outbound steering value *)

(** X20: when the solver keeps its steering value within the 25 degree
    bound, the steering value in the message lies within 1 / 2.67 of zero,
    hence strictly inside [-1, 1]; the throttle in the message is the
    solver's second value, so it is in [-1, 1] exactly when that is. *)
Theorem steering_range qr mpc (j : telemetry) (out : tick) :
  onTelemetry qr mpc j = Done out ->
  Rabs (nth 0 (vars out) 0) <= deg2rad 25 ->
  Rabs (steering_angle (msg out)) <= 1 / 2.67 /\
  -1 < steering_angle (msg out) < 1 /\
  (-1 <= throttle (msg out) <= 1 <-> -1 <= nth 1 (vars out) 0 <= 1).
Proof.
  intros H Hbound.
  destruct (command_sent qr mpc j out H) as (_ & Hsteer & Hthr).
  rewrite Hsteer, Hthr. unfold Lf.
  pose proof deg2rad_25_pos as Hpos.
  set (d := deg2rad 25) in *. set (a := nth 0 (vars out) 0) in *.
  assert (Hden : 0 < d * 2.67) by nra.
  assert (Habs : Rabs (a / (d * 2.67)) <= 1 / 2.67).
  { unfold Rdiv at 1. rewrite Rabs_mult, (Rabs_pos_eq (/ (d * 2.67)))
      by (left; apply Rinv_0_lt_compat; exact Hden).
    apply Rmult_le_reg_r with (r := d * 2.67); [exact Hden|].
    rewrite Rmult_assoc, Rinv_l by lra.
    replace (1 / 2.67 * (d * 2.67)) with d by (field; lra). lra. }
  split; [exact Habs|]. split; [|tauto].
  unfold Rabs in Habs. destruct (Rcase_abs (a / (d * 2.67))); lra.
Qed.

Lemma steering_range_witness :
  exists out,
    onTelemetry qr_zero mpc_at_bound j_six = Done out /\
    Rabs (steering_angle (msg out)) <= 1 / 2.67.
Proof.
  exists (proj1_sig onTelemetry_j_six).
  split; [exact (proj2_sig onTelemetry_j_six)|].
  apply (steering_range qr_zero mpc_at_bound j_six
           (proj1_sig onTelemetry_j_six) (proj2_sig onTelemetry_j_six)).
  destruct (command_sent _ _ _ _ (proj2_sig onTelemetry_j_six)) as (Hv & _).
  rewrite Hv. unfold mpc_at_bound. cbn [nth].
  rewrite Rabs_pos_eq; [lra | left; exact deg2rad_25_pos].
Defined.
